(** * compass-xr: heading estimation, geodesy and radial layout

    A shallow embedding of [src/App.tsx] (the Solid component [App]) and of
    the [/api/buildings] handler of [backend/index.ts].

    JavaScript numbers are modelled by real numbers: every arithmetic
    operation is the exact one, and [Math.sin], [Math.cos], [Math.sqrt] and
    [Math.atan2] are the mathematical functions.  Rounding, signed zeros and
    NaN are outside the model, except in the backend where [Number(...)] of a
    query parameter can produce a non-finite value and the handler tests for
    it. *)

From Stdlib Require Import Reals Lra Lia List String Bool Arith ZArith.
From Stdlib Require Import Permutation Sorted DecimalString.
Import ListNotations.

Local Open Scope R_scope.

(** ** JavaScript numeric primitives *)

Module JsNum.

(** Truncation towards zero, the integer quotient behind [%]. *)
Definition Ztrunc (r : R) : Z :=
  if Rle_dec 0 r then Zfloor r else Zceil r.

(** [x % m]: the remainder whose sign follows the dividend. *)
Definition js_rem (x m : R) : R := x - m * IZR (Ztrunc (x / m)).

(** [Math.atan2(y, x)], with [atan2(0, 0) = 0] as ECMAScript defines it. *)
Definition atan2 (y x : R) : R :=
  if Rlt_dec 0 x then atan (y / x)
  else if Rlt_dec x 0 then
    if Rle_dec 0 y then atan (y / x) + PI else atan (y / x) - PI
  else
    if Rlt_dec 0 y then PI / 2
    else if Rlt_dec y 0 then - (PI / 2)
    else 0.

(** [value ?? 0] on a nullable number. *)
Definition orZero (v : option R) : R :=
  match v with Some x => x | None => 0 end.

End JsNum.

Import JsNum.

(** ** Array methods used by the component *)

Module JsArray.

Section Sort.
Context {A : Type} (compareFn : A -> A -> R).

Fixpoint insert (x : A) (l : list A) : list A :=
  match l with
  | [] => [x]
  | y :: l' =>
      if Rle_dec (compareFn x y) 0 then x :: y :: l' else y :: insert x l'
  end.

(** [Array.prototype.sort(compareFn)] is stable; for a comparator that
    orders the elements consistently its result is the stable sorted
    arrangement, which insertion from the right computes. *)
Definition sort (l : list A) : list A := fold_right insert [] l.
End Sort.

Section IndexOf.
Context {A : Type} (eq_dec : forall x y : A, {x = y} + {x <> y}).

Fixpoint indexOfFrom (i : Z) (l : list A) (x : A) : Z :=
  match l with
  | [] => (-1)%Z
  | y :: l' => if eq_dec y x then i else indexOfFrom (i + 1)%Z l' x
  end.

(** [l.indexOf(x)]: first position holding [x], [-1] when there is none. *)
Definition indexOf (l : list A) (x : A) : Z := indexOfFrom 0%Z l x.
End IndexOf.

(** Strict equality on [number | null]. *)
Definition strictEq (a b : option R) : {a = b} + {a <> b}.
Proof. decide equality. apply Req_dec_T. Defined.

End JsArray.

(** ** Data model ([App.tsx], lines 3-26) *)

Module Building.
Record t : Type := mk {
  id : Z;
  label : string;
  type : string;
  address : option string;
  lat : R;
  lng : R
}.
End Building.

Record LatLng : Type := { lat : R; lng : R }.

Definition position (building : Building.t) : LatLng :=
  {| lat := Building.lat building; lng := Building.lng building |}.

(** The signals and closure variables of [App], followed by the part of the
    host the orientation code acts on: the handlers registered for
    [deviceorientationabsolute], the animation-frame requests not yet run,
    the cleanups registered with the owner, and the calls of
    [startOrientation] suspended at [await requestPermission()].  Every call
    that gets past the permission check creates its own [handleOrientation]
    and cleanup closures; they are told apart by the number of that call. *)
Record State : Type := mkState {
  status : string;
  error : string;
  buildings : list Building.t;
  radius : R;
  coords : option LatLng;
  hasSearched : bool;
  heading : option R;
  rawHeading : option R;
  orientationError : string;
  headingHistory : list R;
  orientationActive : bool;
  headingAnimationId : option nat;
  listeners : list nat;
  frames : list nat;
  nextFrame : nat;
  cleanups : list nat;
  nextCall : nat;
  awaiting : nat
}.

Definition headingHistorySize : nat := 12.

Definition initial : State :=
  {| status := "現在地周辺の建物を取得します。";
     error := "";
     buildings := [];
     radius := 200;
     coords := None;
     hasSearched := false;
     heading := None;
     rawHeading := None;
     orientationError := "";
     headingHistory := [];
     orientationActive := false;
     headingAnimationId := None;
     listeners := [];
     frames := [];
     nextFrame := 0;
     cleanups := [];
     nextCall := 0;
     awaiting := 0 |}.

(** *** Assignments *)

Definition setHeading (v : option R) (s : State) : State :=
  mkState (status s) (error s) (buildings s) (radius s) (coords s)
    (hasSearched s) v (rawHeading s) (orientationError s) (headingHistory s)
    (orientationActive s) (headingAnimationId s) (listeners s) (frames s)
    (nextFrame s) (cleanups s) (nextCall s) (awaiting s).

Definition setRawHeading (v : option R) (s : State) : State :=
  mkState (status s) (error s) (buildings s) (radius s) (coords s)
    (hasSearched s) (heading s) v (orientationError s) (headingHistory s)
    (orientationActive s) (headingAnimationId s) (listeners s) (frames s)
    (nextFrame s) (cleanups s) (nextCall s) (awaiting s).

Definition setOrientationError (v : string) (s : State) : State :=
  mkState (status s) (error s) (buildings s) (radius s) (coords s)
    (hasSearched s) (heading s) (rawHeading s) v (headingHistory s)
    (orientationActive s) (headingAnimationId s) (listeners s) (frames s)
    (nextFrame s) (cleanups s) (nextCall s) (awaiting s).

Definition setHeadingHistory (v : list R) (s : State) : State :=
  mkState (status s) (error s) (buildings s) (radius s) (coords s)
    (hasSearched s) (heading s) (rawHeading s) (orientationError s) v
    (orientationActive s) (headingAnimationId s) (listeners s) (frames s)
    (nextFrame s) (cleanups s) (nextCall s) (awaiting s).

Definition setOrientationActive (v : bool) (s : State) : State :=
  mkState (status s) (error s) (buildings s) (radius s) (coords s)
    (hasSearched s) (heading s) (rawHeading s) (orientationError s)
    (headingHistory s) v (headingAnimationId s) (listeners s) (frames s)
    (nextFrame s) (cleanups s) (nextCall s) (awaiting s).

Definition setHeadingAnimationId (v : option nat) (s : State) : State :=
  mkState (status s) (error s) (buildings s) (radius s) (coords s)
    (hasSearched s) (heading s) (rawHeading s) (orientationError s)
    (headingHistory s) (orientationActive s) v (listeners s) (frames s)
    (nextFrame s) (cleanups s) (nextCall s) (awaiting s).

Definition setListeners (v : list nat) (s : State) : State :=
  mkState (status s) (error s) (buildings s) (radius s) (coords s)
    (hasSearched s) (heading s) (rawHeading s) (orientationError s)
    (headingHistory s) (orientationActive s) (headingAnimationId s) v
    (frames s) (nextFrame s) (cleanups s) (nextCall s) (awaiting s).

Definition setFrames (v : list nat) (s : State) : State :=
  mkState (status s) (error s) (buildings s) (radius s) (coords s)
    (hasSearched s) (heading s) (rawHeading s) (orientationError s)
    (headingHistory s) (orientationActive s) (headingAnimationId s)
    (listeners s) v (nextFrame s) (cleanups s) (nextCall s) (awaiting s).

Definition setNextFrame (v : nat) (s : State) : State :=
  mkState (status s) (error s) (buildings s) (radius s) (coords s)
    (hasSearched s) (heading s) (rawHeading s) (orientationError s)
    (headingHistory s) (orientationActive s) (headingAnimationId s)
    (listeners s) (frames s) v (cleanups s) (nextCall s) (awaiting s).

Definition setCleanups (v : list nat) (s : State) : State :=
  mkState (status s) (error s) (buildings s) (radius s) (coords s)
    (hasSearched s) (heading s) (rawHeading s) (orientationError s)
    (headingHistory s) (orientationActive s) (headingAnimationId s)
    (listeners s) (frames s) (nextFrame s) v (nextCall s) (awaiting s).

Definition setNextCall (v : nat) (s : State) : State :=
  mkState (status s) (error s) (buildings s) (radius s) (coords s)
    (hasSearched s) (heading s) (rawHeading s) (orientationError s)
    (headingHistory s) (orientationActive s) (headingAnimationId s)
    (listeners s) (frames s) (nextFrame s) (cleanups s) v (awaiting s).

Definition setAwaiting (v : nat) (s : State) : State :=
  mkState (status s) (error s) (buildings s) (radius s) (coords s)
    (hasSearched s) (heading s) (rawHeading s) (orientationError s)
    (headingHistory s) (orientationActive s) (headingAnimationId s)
    (listeners s) (frames s) (nextFrame s) (cleanups s) (nextCall s) v.

Definition setCoords (v : option LatLng) (s : State) : State :=
  mkState (status s) (error s) (buildings s) (radius s) v
    (hasSearched s) (heading s) (rawHeading s) (orientationError s)
    (headingHistory s) (orientationActive s) (headingAnimationId s)
    (listeners s) (frames s) (nextFrame s) (cleanups s) (nextCall s)
    (awaiting s).

Definition setBuildings (v : list Building.t) (s : State) : State :=
  mkState (status s) (error s) v (radius s) (coords s)
    (hasSearched s) (heading s) (rawHeading s) (orientationError s)
    (headingHistory s) (orientationActive s) (headingAnimationId s)
    (listeners s) (frames s) (nextFrame s) (cleanups s) (nextCall s)
    (awaiting s).

(** ** Great-circle bearing and distance ([App.tsx], lines 160-182) *)

Definition toRad (deg : R) : R := (deg * PI) / 180.

Definition bearingBetween (from to : LatLng) : R :=
  let lat1 := toRad (lat from) in
  let lat2 := toRad (lat to) in
  let deltaLng := toRad (lng to - lng from) in
  let y := sin deltaLng * cos lat2 in
  let x := cos lat1 * sin lat2 - sin lat1 * cos lat2 * cos deltaLng in
  let brng := (atan2 y x * 180) / PI in
  js_rem (brng + 360) 360.

(** The quantity [a] of [distanceBetween], whose square roots are taken. *)
Definition haversine (from to : LatLng) : R :=
  let lat1 := toRad (lat from) in
  let lat2 := toRad (lat to) in
  let deltaLat := toRad (lat to - lat from) in
  let deltaLng := toRad (lng to - lng from) in
  (sin (deltaLat / 2)) ^ 2 + cos lat1 * cos lat2 * (sin (deltaLng / 2)) ^ 2.

Definition distanceBetween (from to : LatLng) : R :=
  let radiusMeters := 6371000 in
  let a := haversine from to in
  let c := 2 * atan2 (sqrt a) (sqrt (1 - a)) in
  radiusMeters * c.

(** ** Orientation tracking ([App.tsx], lines 84-158) *)

(** What [startOrientation] finds in the host when it is called. *)
Record Env : Type := {
  supported : bool;        (* [window] and [DeviceOrientationEvent] exist *)
  needsPermission : bool   (* [DeviceOrientationEvent.requestPermission] is a function *)
}.

Inductive PermissionState : Type := granted | denied.

(** The two fields of the event that [handleOrientation] reads.
    [webkitCompassHeading] is [Some] exactly when [Number.isFinite] accepts
    it; [alpha] is [None] for [null]. *)
Record DeviceOrientationEvent : Type := {
  webkitCompassHeading : option R;
  alpha : option R
}.

Definition unsupportedMessage : string :=
  "この端末は向き取得に対応していません。".

Definition deniedMessage : string :=
  "向きの取得が許可されていません。ボタンから許可してください。".

(** Truthiness of a string. *)
Definition truthy (s : string) : bool := negb (String.eqb s "").

(** The [value] that [handleOrientation] computes from an event (lines
    95-100): the compass heading when there is one, else the heading derived
    from [alpha], else [null]. *)
Definition value (event : DeviceOrientationEvent) : option R :=
  match webkitCompassHeading event with
  | Some compass => Some compass
  | None =>
      match alpha event with
      | None => None
      | Some alpha => Some (js_rem (360 - alpha + 360) 360)
      end
  end.

Definition handleOrientation (event : DeviceOrientationEvent) (s : State) : State :=
  match value event with
  | None => s
  | Some value =>
      let s := setRawHeading (Some value) s in
      let s := match heading s with
               | None => setHeading (Some value) s
               | Some _ => s
               end in
      if truthy (orientationError s) then setOrientationError "" s else s
  end.

(** [headingAnimationId = window.requestAnimationFrame(updateHeading)]. *)
Definition requestAnimationFrame (s : State) : State :=
  let id := nextFrame s in
  let s := setNextFrame (S id) s in
  let s := setFrames (frames s ++ [id]) s in
  setHeadingAnimationId (Some id) s.

Definition cancelAnimationFrame (id : nat) (s : State) : State :=
  setFrames (remove Nat.eq_dec id (frames s)) s.

(** The loop over [headingHistory] of [updateHeading] (lines 137-143). *)
Definition sinCosSums (history : list R) : R * R :=
  fold_left
    (fun sums deg =>
       let rad := (deg * PI) / 180 in
       (fst sums + sin rad, snd sums + cos rad))
    history (0, 0).

Definition updateHeading (s : State) : State :=
  let s :=
    match rawHeading s with
    | Some value =>
        let history := headingHistory s ++ [value] in
        let history :=
          if (headingHistorySize <? List.length history)%nat
          then tl history else history in
        let s := setHeadingHistory history s in
        let (sinSum, cosSum) := sinCosSums history in
        let n := INR (List.length history) in
        let avg := atan2 (sinSum / n) (cosSum / n) in
        setHeading (Some (js_rem ((avg * 180) / PI + 360) 360)) s
    | None => s
    end in
  requestAnimationFrame s.

(** Lines 127-157: what [startOrientation] does once the permission check
    is behind it. *)
Definition beginTracking (s : State) : State :=
  let call := nextCall s in
  let s := setNextCall (S call) s in
  let s := setOrientationActive true s in
  let s := setHeadingHistory [] s in
  let s := setListeners (listeners s ++ [call]) s in
  let s := requestAnimationFrame s in
  setCleanups (cleanups s ++ [call]) s.

(** [startOrientation] up to its first suspension point or return. *)
Definition startOrientation (env : Env) (s : State) : State :=
  let s := setOrientationError "" s in
  if negb (supported env) then setOrientationError unsupportedMessage s
  else if orientationActive s then s
  else if needsPermission env then setAwaiting (S (awaiting s)) s
  else beginTracking s.

(** The continuation of a suspended call when its permission request
    settles (lines 121-157). *)
Definition resumeOrientation (result : PermissionState) (s : State) : State :=
  match awaiting s with
  | O => s
  | S n =>
      let s := setAwaiting n s in
      match result with
      | granted => beginTracking s
      | denied => setOrientationError deniedMessage s
      end
  end.

(** The cleanup registered by call number [call] (lines 150-157). *)
Definition cleanup (call : nat) (s : State) : State :=
  let s := setListeners (remove Nat.eq_dec call (listeners s)) s in
  let s := setOrientationActive false s in
  match headingAnimationId s with
  | Some id => setHeadingAnimationId None (cancelAnimationFrame id s)
  | None => s
  end.

(** *** The event loop *)

Inductive Event : Type :=
| Click (env : Env)                        (* the button calls [startOrientation] *)
| Permission (result : PermissionState)    (* a pending [requestPermission()] settles *)
| Sensor (event : DeviceOrientationEvent)  (* the host fires [deviceorientationabsolute] *)
| Frame                                    (* the host runs the requested animation frames *)
| Dispose.                                 (* the owner is disposed: its cleanups run *)

(** Every registered handler receives the event. *)
Definition dispatchOrientation (event : DeviceOrientationEvent) (s : State) : State :=
  fold_left (fun s _ => handleOrientation event s) (listeners s) s.

(** The callbacks requested before the frame run; what they request is left
    for the next frame. *)
Definition animationFrame (s : State) : State :=
  fold_left (fun s _ => updateHeading s) (frames s) (setFrames [] s).

(** The cleanups registered through [onCleanup] run once, here in the order
    of their registration, each removing the handler of its own call. *)
Definition dispose (s : State) : State :=
  fold_left (fun s call => cleanup call s) (cleanups s) (setCleanups [] s).

Definition step (e : Event) (s : State) : State :=
  match e with
  | Click env => startOrientation env s
  | Permission result => resumeOrientation result s
  | Sensor event => dispatchOrientation event s
  | Frame => animationFrame s
  | Dispose => dispose s
  end.

Definition run (es : list Event) (s : State) : State :=
  fold_left (fun s e => step e s) es s.

(** Number of times [updateHeading] runs while [es] is processed from [s]. *)
Fixpoint ticks (es : list Event) (s : State) : nat :=
  match es with
  | [] => 0
  | e :: es' =>
      (match e with Frame => List.length (frames s) | _ => 0 end
       + ticks es' (step e s))%nat
  end.

(** The estimator is idle when no call is tracking: nothing is registered
    and nothing is scheduled. *)
Definition Idle (s : State) : Prop :=
  orientationActive s = false /\ listeners s = [] /\ frames s = [].

(** The signals of the location search. *)
Definition searchFlow (s : State)
  : string * string * list Building.t * R * option LatLng * bool :=
  (status s, error s, buildings s, radius s, coords s, hasSearched s).

(** ** Radial layout ([App.tsx], lines 184-235 and 328-405) *)

Definition beadings (s : State) : list (option R) :=
  map (fun building =>
         match coords s with
         | None => None
         | Some from => Some (bearingBetween from (position building))
         end)
      (buildings s).

(** The body of the [beadingRanks] memo, as a function of [beadings()]:
    the sorted copy, then the position of each bearing in it.  In [a! - b!]
    a [null] counts as [0]. *)
Definition sortedBearings (bearings : list (option R)) : list (option R) :=
  JsArray.sort (fun a b => orZero a - orZero b) bearings.

Definition ranksOf (bearings : list (option R)) : list Z :=
  let sorted := sortedBearings bearings in
  map (fun bearing => JsArray.indexOf JsArray.strictEq sorted bearing) bearings.

Definition beadingRanks (s : State) : list Z := ranksOf (beadings s).

Record Direction : Type := { name : string; angle : R }.

Definition directions : list Direction :=
  [ {| name := "N"; angle := 0 |};
    {| name := "NE"; angle := 45 |};
    {| name := "E"; angle := 90 |};
    {| name := "SE"; angle := 135 |};
    {| name := "S"; angle := 180 |};
    {| name := "SW"; angle := 225 |};
    {| name := "W"; angle := 270 |};
    {| name := "NW"; angle := 315 |} ].

(** The callback of the [For] over the eight directions (lines 340-345). *)
Module Cardinal.
Definition relative (dir : Direction) (s : State) : R :=
  let headingValue := orZero (heading s) in
  let rawRelative := angle dir - headingValue in
  js_rem (rawRelative + 540) 360 - 180.
End Cardinal.

(** The callback of the [For] over [buildings().filter(...)] (lines
    366-382): [building] is an element of the filtered list and [index] its
    position in that list.  The view is rendered only while [coords()] is
    set, which gives [from].  The position read from [beadings()] and
    [beadingRanks()] always exists, the filtered list being no longer than
    the full one. *)
Module Marker.
Definition bearing (s : State) (index : nat) : R :=
  orZero (nth index (beadings s) None).

Definition relative (s : State) (index : nat) : R :=
  let headingValue := orZero (heading s) in
  let rawRelative := bearing s index - headingValue in
  js_rem (rawRelative + 540) 360 - 180.

Definition verticalOffset (s : State) (index : nat) : Z :=
  let rank := Z.rem (nth index (beadingRanks s) 0%Z) 20 in
  let spacing := 24%Z in
  let centerOffset := (spacing * 20 / 2)%Z in
  (rank * spacing - centerOffset)%Z.

Definition distanceMeters (from : LatLng) (building : Building.t) : R :=
  distanceBetween from (position building).

Definition isNear (from : LatLng) (building : Building.t) : bool :=
  if Rle_dec (distanceMeters from building) 100 then true else false.
End Marker.

Record MarkerView : Type := {
  shown : Building.t;
  relativeValue : R;
  top : Z;
  meters : R;
  near : bool
}.

(** [buildings().filter(v => v.label !== 'yes')]. *)
Definition markerBuildings (s : State) : list Building.t :=
  filter (fun v => negb (String.eqb (Building.label v) "yes")) (buildings s).

Definition buildingMarkers (s : State) (from : LatLng) : list MarkerView :=
  map (fun entry =>
         let index := fst entry in
         let building := snd entry in
         {| shown := building;
            relativeValue := Marker.relative s index;
            top := Marker.verticalOffset s index;
            meters := Marker.distanceMeters from building;
            near := Marker.isNear from building |})
      (combine (seq 0 (List.length (markerBuildings s))) (markerBuildings s)).

Definition cardinalMarkers (s : State) : list (string * R) :=
  map (fun dir => (name dir, Cardinal.relative dir s)) directions.

(** The radial view, shown when [coords() && buildings().length > 0]. *)
Definition radialView (s : State) : option (list (string * R) * list MarkerView) :=
  match coords s, buildings s with
  | Some from, _ :: _ => Some (cardinalMarkers s, buildingMarkers s from)
  | _, _ => None
  end.

(** The rows of [BuildingsList]: one per element of [buildings()]. *)
Definition BuildingsList (s : State)
  : list (string * string * option string * R * R) :=
  map (fun building =>
         (Building.label building, Building.type building,
          Building.address building, Building.lat building,
          Building.lng building))
      (buildings s).

(** ** The building search endpoint ([backend/index.ts], lines 6-22, 44-98) *)

Module Backend.

(** A JavaScript number as [Number(...)] can return it. *)
Inductive Num : Type := Finite (r : R) | NaN | Infinity | NegInfinity.

Definition Tags : Type := list (string * string).

Fixpoint get (tags : Tags) (key : string) : option string :=
  match tags with
  | [] => None
  | (k, v) :: rest => if String.eqb k key then Some v else get rest key
  end.

Definition truthyOpt (v : option string) : bool :=
  match v with Some s => truthy s | None => false end.

(** [a || b] on [string | undefined]. *)
Definition orElse (a b : option string) : option string :=
  if truthyOpt a then a else b.

Definition toAddress (tags : Tags) : option string :=
  if truthyOpt (get tags "addr:full") then get tags "addr:full"
  else
    let street := get tags "addr:street" in
    let number := get tags "addr:housenumber" in
    match street, number with
    | Some st, Some nb =>
        if truthy st && truthy nb then Some (st ++ " " ++ nb)%string
        else if truthy st then street else None
    | Some st, None => if truthy st then street else None
    | None, _ => None
    end.

Record Center : Type := { center_lat : R; center_lon : R }.

Record OverpassElement : Type := {
  el_id : Z;
  el_lat : option R;
  el_lon : option R;
  center : option Center;
  tags : option Tags
}.

(** The callback of [.map] on the elements (lines 79-94). *)
Definition shape (element : OverpassElement) : option Building.t :=
  let tags := match tags element with Some t => t | None => [] end in
  let latValue :=
    match el_lat element with
    | Some v => Some v
    | None => option_map center_lat (center element)
    end in
  let lngValue :=
    match el_lon element with
    | Some v => Some v
    | None => option_map center_lon (center element)
    end in
  match latValue, lngValue with
  | Some latValue, Some lngValue =>
      Some (Building.mk (el_id element)
              (match orElse (orElse (orElse (get tags "name")
                                       (get tags "addr:housename"))
                               (get tags "building")) (Some "建物"%string) with
               | Some l => l
               | None => ""%string
               end)
              (match orElse (get tags "building") (Some "building"%string) with
               | Some t => t
               | None => ""%string
               end)
              (toAddress tags) latValue lngValue)
  | _, _ => None
  end.

Record Query : Type := {
  q_lat : option string;
  q_lng : option string;
  q_radius : option string
}.

(** The Overpass query text interpolates three numbers and nothing else
    of the request; the request sent upstream is identified by them. *)
Record OverpassQuery : Type := {
  around : R;
  aroundLat : R;
  aroundLng : R
}.

Record UpstreamResponse : Type := {
  ok : bool;
  elements : option (list OverpassElement)
}.

Inductive Body : Type :=
| ErrorBody (error : string)
| BuildingsBody (buildings : list Building.t) (radius : R).

Record Response : Type := { body : Body; code : nat }.

Definition json (b : Body) (code : nat) : Response :=
  {| body := b; code := code |}.

Section Handler.
(** [Number(v)] for a query parameter, absent ([undefined]) or a string. *)
Variable Number : option string -> Num.
(** The upstream service: the response to the POST of a query.  A [fetch]
    that rejects (no response at all) is outside the model. *)
Variable fetch : OverpassQuery -> UpstreamResponse.

(** The response, with the queries sent upstream on the way. *)
Definition handler (q : Query) : Response * list OverpassQuery :=
  let latNum := Number (q_lat q) in
  let lngNum := Number (q_lng q) in
  match latNum, lngNum with
  | Finite latNum, Finite lngNum =>
      let radiusNum := Number (q_radius q) in
      let radiusMeters :=
        match radiusNum with Finite r => r | _ => 200 end in
      let clampedRadius := Rmin (Rmax radiusMeters 50) 1000 in
      let query :=
        {| around := clampedRadius; aroundLat := latNum; aroundLng := lngNum |} in
      let response := fetch query in
      if negb (ok response)
      then (json (ErrorBody "Failed to fetch OSM data.") 502, [query])
      else
        let buildings :=
          flat_map (fun element =>
                      match shape element with
                      | Some b => [b]
                      | None => []
                      end)
                   (match elements response with Some l => l | None => [] end) in
        (json (BuildingsBody buildings clampedRadius) 200, [query])
  | _, _ => (json (ErrorBody "Invalid coordinates.") 400, [])
  end.
End Handler.

(** The radius member of a response body, when it has one. *)
Definition echoedRadius (r : Response) : option R :=
  match body r with
  | BuildingsBody _ radius => Some radius
  | ErrorBody _ => None
  end.

End Backend.

(** ** The design's wording of the two transforms *)

(** The mathematical [x mod m], with a result in [[0, m)]. *)
Definition Rmod (x m : R) : R := x - m * IZR (Zfloor (x / m)).

(** [relativeAngle(absoluteBearing, heading)] as the design states it. *)
Definition relativeAngle (absoluteBearing heading : R) : R :=
  Rmod (absoluteBearing - heading + 540) 360 - 180.

Definition sum (l : list R) : R := fold_right Rplus 0 l.

(** The circular mean as the design states it: radians, the two sums, the
    angle of the means, degrees, normalised into [[0, 360)]. *)
Definition circularMean (samples : list R) : R :=
  let radians := map toRad samples in
  let n := INR (List.length samples) in
  let meanSin := sum (map sin radians) / n in
  let meanCos := sum (map cos radians) / n in
  let degrees := atan2 meanSin meanCos * 180 / PI in
  Rmod degrees 360.

(** The [n] most recent elements of a history that grows at its end. *)
Definition recent {A : Type} (n : nat) (l : list A) : list A :=
  skipn (List.length l - n) l.

(** The history that [updateHeading] leaves when it pushes [v] onto [h]
    (lines 133-136). *)
Definition pushed (h : list R) (v : R) : list R :=
  if (headingHistorySize <? List.length (h ++ [v]))%nat
  then tl (h ++ [v]) else h ++ [v].

(** An event that brings no sample: any event but a sensor event with a
    [value]. *)
Definition silent (e : Event) : Prop :=
  match e with
  | Sensor event => value event = None
  | _ => True
  end.

(** As long as nothing has been sampled there is neither a raw value nor a
    heading. *)
Definition unsampled (s : State) : Prop :=
  rawHeading s = None /\ heading s = None.

(** The history respects its capacity. *)
Definition bounded (s : State) : Prop :=
  (List.length (headingHistory s) <= headingHistorySize)%nat.

(** One handler registered and one frame requested. *)
Definition singleLoop (s : State) : Prop :=
  (exists call, listeners s = [call]) /\ (exists id, frames s = [id]).

(** What the estimator holds and has registered, apart from its error
    message and the calls still waiting for consent. *)
Definition tracking (s : State)
  : bool * list nat * list nat * option nat * list nat
    * list R * option R * option R :=
  (orientationActive s, listeners s, frames s, headingAnimationId s,
   cleanups s, headingHistory s, heading s, rawHeading s).

(** No call of [startOrientation] begins while another one is suspended at
    its permission request. *)
Fixpoint exclusive (es : list Event) (s : State) : Prop :=
  match es with
  | [] => True
  | e :: es' =>
      match e with Click _ => awaiting s = 0%nat | _ => True end
      /\ exclusive es' (step e s)
  end.


(** At most one call is suspended, and the estimator is either idle with
    nothing registered or tracking with exactly one handler, one cleanup and
    one requested frame, the one [headingAnimationId] names. *)
Definition resting (s : State) : Prop :=
  orientationActive s = false /\ listeners s = [] /\ frames s = []
  /\ cleanups s = [].

Definition looping (s : State) : Prop :=
  orientationActive s = true
  /\ exists call id,
       listeners s = [call] /\ cleanups s = [call]
       /\ frames s = [id] /\ headingAnimationId s = Some id.

Definition orderly (s : State) : Prop :=
  (awaiting s <= 1)%nat
  /\ (awaiting s = 1%nat -> orientationActive s = false)
  /\ (resting s \/ looping s).

(** ** Scenarios *)

(** A host without the permission API, and one with it. *)
Definition plainHost : Env := {| supported := true; needsPermission := false |}.
Definition askingHost : Env := {| supported := true; needsPermission := true |}.
Definition bareHost : Env := {| supported := false; needsPermission := false |}.

(** The state right after one successful [startOrientation]. *)
Definition listening : State := run [Click plainHost] initial.

(** A sensor event carrying the compass heading [v]. *)
Definition reading (v : R) : DeviceOrientationEvent :=
  {| webkitCompassHeading := Some v; alpha := None |}.

(** Each sample arrives and is followed by one animation frame. *)
Definition feed (samples : list R) : list Event :=
  flat_map (fun v => [Sensor (reading v); Frame]) samples.

(** A user in Shibuya with buildings found around. *)
Definition here : LatLng := {| lat := 35.657; lng := 139.703 |}.

Definition found (l : list Building.t) : State :=
  setBuildings l (setCoords (Some here) initial).

(** An unnamed building due north, a named one due south, and a second
    building at the position of the first. *)
Definition northYes : Building.t :=
  Building.mk 1 "yes" "yes" None 35.658 139.703.
Definition southCafe : Building.t :=
  Building.mk 2 "Cafe" "cafe" None 35.656 139.703.
Definition northAnnex : Building.t :=
  Building.mk 3 "Annex" "yes" None 35.658 139.703.

(** ** The rest of the component *)

(** The percentage in [left: calc(50% + ${(relativeValue() / 180) * 50}%)]
    (lines 351 and 391). *)
Definition leftPercent (relativeValue : R) : R :=
  50 + (relativeValue / 180) * 50.

(** The number of buildings of [l] whose bearing from [from] is strictly
    smaller than that of [building]. *)
Definition smallerBearings (from : LatLng) (l : list Building.t)
           (building : Building.t) : nat :=
  List.length
    (filter (fun other =>
               if Rlt_dec (bearingBetween from (position other))
                          (bearingBetween from (position building))
               then true else false)
            l).

(** *** The location search ([App.tsx], lines 22-82 and 254) *)

Definition setStatus (v : string) (s : State) : State :=
  mkState v (error s) (buildings s) (radius s) (coords s)
    (hasSearched s) (heading s) (rawHeading s) (orientationError s)
    (headingHistory s) (orientationActive s) (headingAnimationId s)
    (listeners s) (frames s) (nextFrame s) (cleanups s) (nextCall s)
    (awaiting s).

Definition setError (v : string) (s : State) : State :=
  mkState (status s) v (buildings s) (radius s) (coords s)
    (hasSearched s) (heading s) (rawHeading s) (orientationError s)
    (headingHistory s) (orientationActive s) (headingAnimationId s)
    (listeners s) (frames s) (nextFrame s) (cleanups s) (nextCall s)
    (awaiting s).

Definition setRadius (v : R) (s : State) : State :=
  mkState (status s) (error s) (buildings s) v (coords s)
    (hasSearched s) (heading s) (rawHeading s) (orientationError s)
    (headingHistory s) (orientationActive s) (headingAnimationId s)
    (listeners s) (frames s) (nextFrame s) (cleanups s) (nextCall s)
    (awaiting s).

Definition setHasSearched (v : bool) (s : State) : State :=
  mkState (status s) (error s) (buildings s) (radius s) (coords s)
    v (heading s) (rawHeading s) (orientationError s)
    (headingHistory s) (orientationActive s) (headingAnimationId s)
    (listeners s) (frames s) (nextFrame s) (cleanups s) (nextCall s)
    (awaiting s).

Definition fallbackCoords : LatLng := {| lat := 35.65702; lng := 139.70311 |}.

(** What [fetchBuildings] asks for: the three numbers that its query string
    carries. *)
Record BuildingsRequest : Type := {
  reqLat : R;
  reqLng : R;
  reqRadius : R
}.

(** How the awaited [fetchBuildings] ends: with a parsed body, whose member
    [buildings] may be missing; with a response that is not ok, for which it
    throws its own error; with an [Error] thrown underneath it; or with a
    thrown value that is not an [Error]. *)
Inductive FetchOutcome : Type :=
| Loaded (found : option (list Building.t))
| NotOk
| Thrown (message : string)
| ThrownOther.

Definition fetchFailedMessage : string := "建物データの取得に失敗しました。".

(** A count in a template literal. *)
Definition decimal (n : nat) : string :=
  DecimalString.NilZero.string_of_uint (Nat.to_uint n).

(** [searchAround] up to its [await] (lines 42-45): the state, and the
    request that [fetchBuildings] sends. *)
Definition searchAround (lat lng : R) (s : State) : State * BuildingsRequest :=
  let s := setCoords (Some {| lat := lat; lng := lng |}) s in
  let s := setStatus "周辺の建物を検索しています…" s in
  (s, {| reqLat := lat; reqLng := lng; reqRadius := radius s |}).

(** [searchAround] after its [await] (lines 46-51). *)
Definition searchAroundResume (outcome : FetchOutcome) (s : State) : State :=
  match outcome with
  | Loaded found =>
      let s := setBuildings (match found with Some l => l | None => [] end) s in
      setStatus
        ("周辺の建物 "
         ++ decimal (match found with Some l => List.length l | None => 0%nat end)
         ++ " 件")%string s
  | NotOk =>
      setStatus "取得に失敗しました。" (setError fetchFailedMessage s)
  | Thrown message =>
      setStatus "取得に失敗しました。" (setError message s)
  | ThrownOther =>
      setStatus "取得に失敗しました。" (setError fetchFailedMessage s)
  end.

Definition fallbackToDefault (message : string) (s : State)
  : State * BuildingsRequest :=
  let s := setError message s in
  let s := setStatus "位置情報の取得に失敗したため、代替地点で検索します…" s in
  searchAround (lat fallbackCoords) (lng fallbackCoords) s.

(** [requestLocation] up to the point where it waits for the position, or,
    without [navigator.geolocation], for the buildings of the fallback
    search. *)
Definition requestLocation (geolocation : bool) (s : State)
  : State * option BuildingsRequest :=
  let s := setError "" s in
  let s := setBuildings [] s in
  let s := setHasSearched true s in
  if negb geolocation
  then
    let (s, request) :=
      fallbackToDefault "このブラウザは位置情報に対応していません。" s in
    (s, Some request)
  else (setStatus "現在地を取得しています…" s, None).

(** The two callbacks given to [getCurrentPosition] (lines 71-77), each up
    to the [await] in [searchAround]. *)
Definition positionFound (latitude longitude : R) (s : State)
  : State * BuildingsRequest :=
  searchAround latitude longitude s.

Definition positionFailed (message : string) (s : State)
  : State * BuildingsRequest :=
  fallbackToDefault ("位置情報を取得できませんでした: " ++ message)%string s.

(** The handler of the radius field (line 254): [typed] is [Number(value)],
    [None] for NaN. *)
Definition onRadiusInput (typed : option R) (s : State) : State :=
  setRadius
    (match typed with
     | Some r => if Req_dec_T r 0 then 200 else r
     | None => 200
     end) s.

(** A sensor event whose value, if it has one, is a heading in [[0, 360)]. *)
Definition inRange (e : Event) : Prop :=
  match e with
  | Sensor event => forall v, value event = Some v -> 0 <= v < 360
  | _ => True
  end.

(** Two properties of the heading and the raw value: both null or neither;
    a heading, when there is one, in [[0, 360)]. *)
Definition bothOrNeither (h r : option R) : Prop := h = None <-> r = None.

Definition headingInRange (h r : option R) : Prop :=
  forall x, h = Some x -> 0 <= x < 360.

Definition isFrame (e : Event) : bool :=
  match e with Frame => true | _ => false end.

(** An upstream answer with a named way that has a centre and a relation
    without coordinates, and a parser and a printer of numbers that agree on
    the three numbers of one request. *)
Definition cafeElement : Backend.OverpassElement :=
  {| Backend.el_id := 7;
     Backend.el_lat := None;
     Backend.el_lon := None;
     Backend.center :=
       Some {| Backend.center_lat := 35.656; Backend.center_lon := 139.703 |};
     Backend.tags :=
       Some [("building", "retail"); ("name", "Cafe");
             ("addr:street", "Dogenzaka"); ("addr:housenumber", "2")]%string |}.

Definition bareElement : Backend.OverpassElement :=
  {| Backend.el_id := 8;
     Backend.el_lat := None;
     Backend.el_lon := None;
     Backend.center := None;
     Backend.tags := None |}.

Definition printSample (x : R) : string :=
  if Req_dec_T x 35.657 then "35.657"
  else if Req_dec_T x 139.703 then "139.703"
  else "300".

Definition numberSample (v : option string) : Backend.Num :=
  match v with
  | Some t =>
      if String.eqb t "35.657" then Backend.Finite 35.657
      else if String.eqb t "139.703" then Backend.Finite 139.703
      else Backend.Finite 300
  | None => Backend.NaN
  end.

Definition fetchSample (query : Backend.OverpassQuery) : Backend.UpstreamResponse :=
  {| Backend.ok := true;
     Backend.elements := Some [cafeElement; bareElement] |}.

(** ** Facts about the primitives *)

Section JsNumFacts.

Lemma js_rem_nonneg_eq (x m : R) (k : Z) :
  0 < m -> 0 <= x -> IZR k * m <= x < (IZR k + 1) * m ->
  js_rem x m = x - m * IZR k.
Proof.
  intros Hm Hx [Hlo Hhi]. unfold js_rem, Ztrunc.
  assert (Hq : 0 <= x / m) by (apply Rmult_le_pos; [lra | left; now apply Rinv_0_lt_compat]).
  destruct (Rle_dec 0 (x / m)) as [_ | Hn]; [| contradiction].
  rewrite (Zfloor_eq k); [reflexivity |].
  split.
  - apply (Rmult_le_reg_r m); [lra |]. unfold Rdiv.
    rewrite Rmult_assoc, Rinv_l by lra. lra.
  - apply (Rmult_lt_reg_r m); [lra |]. unfold Rdiv.
    rewrite Rmult_assoc, Rinv_l by lra. lra.
Qed.

Lemma js_rem_nonneg_bounds (x m : R) :
  0 < m -> 0 <= x -> 0 <= js_rem x m < m.
Proof.
  intros Hm Hx. unfold js_rem, Ztrunc.
  assert (Hq : 0 <= x / m) by (apply Rmult_le_pos; [lra | left; now apply Rinv_0_lt_compat]).
  destruct (Rle_dec 0 (x / m)) as [_ | Hn]; [| contradiction].
  destruct (Zfloor_bound (x / m)) as [Hlo Hhi].
  assert (Hx' : x = x / m * m) by (unfold Rdiv; rewrite Rmult_assoc, Rinv_l by lra; lra).
  split.
  - apply (Rmult_le_compat_r m) in Hlo; [| lra]. lra.
  - apply (Rmult_lt_compat_r m) in Hhi; [| lra]. lra.
Qed.

Lemma atan2_bounds (y x : R) : - PI < atan2 y x <= PI.
Proof.
  pose proof PI_RGT_0 as Hpi. unfold atan2.
  destruct (Rlt_dec 0 x) as [Hx | Hx].
  - pose proof (atan_bound (y / x)). lra.
  - destruct (Rlt_dec x 0) as [Hx' | Hx'].
    + pose proof (atan_bound (y / x)) as Hb.
      destruct (Rle_dec 0 y) as [Hy | Hy].
      * destruct (Req_dec_T y 0) as [-> | Hy0].
        { unfold Rdiv in *. rewrite Rmult_0_l, atan_0 in *. lra. }
        assert (y / x < 0).
        { replace (y / x) with (- (y * / (- x))) by (field; lra).
          assert (0 < y * / (- x)); [| lra].
          apply Rmult_lt_0_compat; [lra | apply Rinv_0_lt_compat; lra]. }
        assert (atan (y / x) < atan 0) by (now apply atan_increasing).
        rewrite atan_0 in *. lra.
      * assert (0 < y / x).
        { replace (y / x) with ((- y) * / (- x)) by (field; lra).
          apply Rmult_lt_0_compat; [lra | apply Rinv_0_lt_compat; lra]. }
        assert (atan 0 < atan (y / x)) by (now apply atan_increasing).
        rewrite atan_0 in *. lra.
    + destruct (Rlt_dec 0 y); [lra |]. destruct (Rlt_dec y 0); lra.
Qed.


Lemma atan2_0_pos (x : R) : 0 < x -> atan2 0 x = 0.
Proof.
  intros Hx. unfold atan2.
  destruct (Rlt_dec 0 x) as [_ | H]; [| contradiction].
  unfold Rdiv. rewrite Rmult_0_l. apply atan_0.
Qed.

Lemma atan2_0_neg (x : R) : x < 0 -> atan2 0 x = PI.
Proof.
  intros Hx. unfold atan2.
  destruct (Rlt_dec 0 x) as [H | _]; [lra |].
  destruct (Rlt_dec x 0) as [_ | H]; [| contradiction].
  destruct (Rle_dec 0 0) as [_ | H]; [| lra].
  unfold Rdiv. rewrite Rmult_0_l, atan_0. lra.
Qed.



Lemma div_bounds (x m : R) (k : Z) :
  0 < m -> IZR k * m <= x < (IZR k + 1) * m -> IZR k <= x / m < IZR k + 1.
Proof.
  intros Hm [Hlo Hhi]. split.
  - apply (Rmult_le_reg_r m); [lra |]. unfold Rdiv.
    rewrite Rmult_assoc, Rinv_l by lra. lra.
  - apply (Rmult_lt_reg_r m); [lra |]. unfold Rdiv.
    rewrite Rmult_assoc, Rinv_l by lra. lra.
Qed.

Lemma Rmod_eq (x m : R) (k : Z) :
  0 < m -> IZR k * m <= x < (IZR k + 1) * m -> Rmod x m = x - m * IZR k.
Proof.
  intros Hm Hx. unfold Rmod.
  rewrite (Zfloor_eq k); [reflexivity | now apply div_bounds].
Qed.

Lemma Rmod_bounds (x m : R) : 0 < m -> 0 <= Rmod x m < m.
Proof.
  intros Hm. unfold Rmod.
  destruct (Zfloor_bound (x / m)) as [Hlo Hhi].
  assert (Hx : x = x / m * m) by (unfold Rdiv; rewrite Rmult_assoc, Rinv_l by lra; lra).
  split.
  - apply (Rmult_le_compat_r m) in Hlo; [| lra]. lra.
  - apply (Rmult_lt_compat_r m) in Hhi; [| lra]. lra.
Qed.

(** On a non-negative dividend [%] is the mathematical [mod]. *)
Lemma js_rem_Rmod (x m : R) : 0 < m -> 0 <= x -> js_rem x m = Rmod x m.
Proof.
  intros Hm Hx. unfold js_rem, Rmod, Ztrunc.
  assert (Hq : 0 <= x / m) by (apply Rmult_le_pos; [lra | left; now apply Rinv_0_lt_compat]).
  destruct (Rle_dec 0 (x / m)) as [_ | Hn]; [reflexivity | contradiction].
Qed.

(** Adding one period before [%] normalises anything above [-m]. *)
Lemma js_rem_shift (x m : R) : 0 < m -> - m <= x -> js_rem (x + m) m = Rmod x m.
Proof.
  intros Hm Hx. rewrite js_rem_Rmod by lra. unfold Rmod.
  replace ((x + m) / m) with (x / m + IZR 1) by (field; lra).
  rewrite Zfloor_addz, plus_IZR. lra.
Qed.

End JsNumFacts.


(** Rewrites [Rmod x m] at a concrete [x], given the quotient. *)
Ltac rmod_at k :=
  rewrite (Rmod_eq _ _ k) by (simpl; lra).

(** ** The relative angle *)

Section RelativeAngle.

Lemma relativeAngle_bounds (absoluteBearing h : R) :
  -180 <= relativeAngle absoluteBearing h < 180.
Proof.
  unfold relativeAngle.
  pose proof (Rmod_bounds (absoluteBearing - h + 540) 360 ltac:(lra)). lra.
Qed.

Lemma Cardinal_relative_spec (dir : Direction) (s : State) :
  0 <= angle dir - orZero (heading s) + 540 ->
  Cardinal.relative dir s = relativeAngle (angle dir) (orZero (heading s)).
Proof.
  intros H. unfold Cardinal.relative, relativeAngle.
  now rewrite js_rem_Rmod by lra.
Qed.

Lemma Marker_relative_spec (s : State) (index : nat) :
  0 <= Marker.bearing s index - orZero (heading s) + 540 ->
  Marker.relative s index
  = relativeAngle (Marker.bearing s index) (orZero (heading s)).
Proof.
  intros H. unfold Marker.relative, relativeAngle.
  now rewrite js_rem_Rmod by lra.
Qed.

Lemma relativeAngle_0_180 : relativeAngle 0 180 = -180.
Proof. unfold relativeAngle. rmod_at 1%Z. lra. Qed.

Lemma relativeAngle_350_10 : relativeAngle 350 10 = -20.
Proof. unfold relativeAngle. rmod_at 2%Z. lra. Qed.

End RelativeAngle.

(** C1, as the code has it: for every absolute bearing and every heading
    in [[0, 360)] the relative angle
    [((absoluteBearing - heading + 540) mod 360) - 180] lies in
    [[-180, 180)], closed below and open above; bearing 0 under heading 180
    gives [-180] and bearing 350 under heading 10 gives [-20].  The building
    markers and the eight direction markers at 0, 45, ..., 315 degrees both
    compute exactly this transform from the current heading (0 while there
    is none). *)
Theorem relative_angle_range (absoluteBearing h : R) :
  0 <= absoluteBearing < 360 -> 0 <= h < 360 ->
  -180 <= relativeAngle absoluteBearing h < 180
  /\ (forall s index,
        orZero (heading s) = h -> Marker.bearing s index = absoluteBearing ->
        Marker.relative s index = relativeAngle absoluteBearing h)
  /\ (forall s dir,
        orZero (heading s) = h -> angle dir = absoluteBearing ->
        Cardinal.relative dir s = relativeAngle absoluteBearing h)
  /\ map angle directions = [0; 45; 90; 135; 180; 225; 270; 315]
  /\ relativeAngle 0 180 = -180
  /\ relativeAngle 350 10 = -20.
Proof.
  intros Hb Hh. split; [apply relativeAngle_bounds |].
  split; [| split; [| split; [reflexivity | split]]].
  - intros s index Hs Hbe. rewrite Marker_relative_spec; rewrite Hs, Hbe; simpl.
    + reflexivity.
    + lra.
  - intros s dir Hs Hd. rewrite Cardinal_relative_spec; rewrite Hs, Hd; simpl.
    + reflexivity.
    + lra.
  - apply relativeAngle_0_180.
  - apply relativeAngle_350_10.
Qed.

Lemma relative_angle_range_witness :
  -180 <= relativeAngle 350 10 < 180
  /\ Cardinal.relative {| name := "N"; angle := 0 |} (setHeading (Some 180) initial)
     = relativeAngle 0 180.
Proof.
  split.
  - apply (relative_angle_range 350 10); lra.
  - apply (relative_angle_range 0 180); [lra | lra | reflexivity | reflexivity].
Defined.

(** C1 as it is worded fails: with heading 180 the north marker (absolute
    bearing 0) is placed at [-180], which is outside [(-180, 180]] and is
    not the stated [180]. *)
Lemma relative_angle_north_at_180 :
  Cardinal.relative {| name := "N"; angle := 0 |} (setHeading (Some 180) initial) = -180
  /\ ~ (forall absoluteBearing h,
          0 <= absoluteBearing < 360 -> 0 <= h < 360 ->
          -180 < relativeAngle absoluteBearing h <= 180)
  /\ relativeAngle 0 180 <> 180.
Proof.
  split; [| split].
  - rewrite Cardinal_relative_spec; simpl; [apply relativeAngle_0_180 | lra].
  - intros H. specialize (H 0 180 ltac:(lra) ltac:(lra)).
    rewrite relativeAngle_0_180 in H. lra.
  - rewrite relativeAngle_0_180. lra.
Qed.

(** ** Bearing and distance *)

Section Geodesy.

Lemma toRad_0 : toRad 0 = 0.
Proof. unfold toRad. lra. Qed.

Lemma toRad_minus (a b : R) : toRad (a - b) = toRad a - toRad b.
Proof. unfold toRad. lra. Qed.

Lemma degrees_bounds (a : R) :
  - PI < a <= PI -> -180 < (a * 180) / PI <= 180.
Proof.
  intros [Hlo Hhi]. pose proof PI_RGT_0 as Hpi. split.
  - apply (Rmult_lt_reg_r PI); [lra |]. unfold Rdiv.
    rewrite Rmult_assoc, Rinv_l by lra. lra.
  - apply (Rmult_le_reg_r PI); [lra |]. unfold Rdiv.
    rewrite Rmult_assoc, Rinv_l by lra. lra.
Qed.




Lemma bearingBetween_bounds (from to : LatLng) :
  0 <= bearingBetween from to < 360.
Proof.
  unfold bearingBetween.
  match goal with
  | |- context [atan2 ?y ?x] =>
      pose proof (degrees_bounds _ (atan2_bounds y x)) as Hd
  end.
  apply js_rem_nonneg_bounds; lra.
Qed.




End Geodesy.


(** ** Sorting and searching *)

Section SortFacts.
Context {A : Type} (key : A -> R).

Let compareFn (a b : A) : R := key a - key b.
Let ascending (a b : A) : Prop := key a <= key b.

Lemma insert_perm (x : A) (l : list A) :
  Permutation (JsArray.insert compareFn x l) (x :: l).
Proof.
  induction l as [| y l IH]; simpl.
  - apply Permutation_refl.
  - destruct (Rle_dec (compareFn x y) 0).
    + apply Permutation_refl.
    + apply perm_trans with (y :: x :: l).
      * now apply perm_skip.
      * apply perm_swap.
Qed.

Lemma sort_perm (l : list A) : Permutation (JsArray.sort compareFn l) l.
Proof.
  induction l as [| x l IH]; simpl.
  - apply perm_nil.
  - apply perm_trans with (x :: JsArray.sort compareFn l).
    + apply insert_perm.
    + now apply perm_skip.
Qed.

Lemma insert_sorted (x : A) (l : list A) :
  StronglySorted ascending l ->
  StronglySorted ascending (JsArray.insert compareFn x l).
Proof.
  induction 1 as [| y l Hs IH Hall]; simpl.
  - repeat constructor.
  - destruct (Rle_dec (compareFn x y) 0) as [Hle | Hgt].
    + constructor; [now constructor |].
      constructor; [unfold ascending, compareFn in *; lra |].
      eapply Forall_impl; [| exact Hall].
      intros z Hz. unfold ascending, compareFn in *. lra.
    + constructor; [exact IH |].
      eapply Permutation_Forall.
      * apply Permutation_sym, insert_perm.
      * constructor; [unfold ascending, compareFn in *; lra | exact Hall].
Qed.

Lemma sort_sorted (l : list A) :
  StronglySorted ascending (JsArray.sort compareFn l).
Proof.
  induction l as [| x l IH]; simpl.
  - constructor.
  - now apply insert_sorted.
Qed.

Lemma sorted_nth_error (l : list A) :
  StronglySorted ascending l ->
  forall i j a b,
    (i < j)%nat -> nth_error l i = Some a -> nth_error l j = Some b ->
    key a <= key b.
Proof.
  induction 1 as [| y l Hs IH Hall]; intros i j a b Hij Hi Hj.
  - destruct i; discriminate.
  - destruct j as [| j]; [lia |]. simpl in Hj.
    destruct i as [| i]; simpl in Hi.
    + injection Hi as <-. rewrite Forall_forall in Hall.
      apply Hall. eapply nth_error_In; eassumption.
    + apply (IH i j); [lia | assumption | assumption].
Qed.

End SortFacts.

Section IndexOfFacts.
Context {A : Type} (eq_dec : forall x y : A, {x = y} + {x <> y}).

(** [indexOf] finds the first position of an element that occurs. *)
Lemma indexOfFrom_In (l : list A) (x : A) (i : Z) :
  In x l ->
  exists n : nat,
    JsArray.indexOfFrom eq_dec i l x = (i + Z.of_nat n)%Z
    /\ nth_error l n = Some x.
Proof.
  revert i. induction l as [| y l IH]; intros i Hin; [contradiction |].
  simpl. destruct (eq_dec y x) as [-> | Hne].
  - exists 0%nat. split; [lia | reflexivity].
  - destruct Hin as [-> | Hin]; [contradiction |].
    destruct (IH (i + 1)%Z Hin) as [n [Hn Hnth]].
    exists (S n). split; [lia | exact Hnth].
Qed.

Lemma indexOf_In (l : list A) (x : A) :
  In x l ->
  exists n : nat,
    JsArray.indexOf eq_dec l x = Z.of_nat n /\ nth_error l n = Some x.
Proof.
  intros Hin. destruct (indexOfFrom_In l x 0 Hin) as [n [Hn Hnth]].
  exists n. split; [exact Hn | exact Hnth].
Qed.

Lemma indexOfFrom_NoDup (l : list A) (i : Z) :
  NoDup l ->
  map (JsArray.indexOfFrom eq_dec i l) l
  = map (fun n => (i + Z.of_nat n)%Z) (seq 0 (List.length l)).
Proof.
  intros Hnd. revert i. induction Hnd as [| y l Hnotin Hnd IH]; intros i.
  - reflexivity.
  - simpl. destruct (eq_dec y y) as [_ | Hne]; [| contradiction].
    f_equal; [lia |].
    rewrite <- seq_shift, map_map.
    rewrite <- (map_ext (fun n => (i + 1 + Z.of_nat n)%Z)) by (intros; lia).
    rewrite <- IH. apply map_ext_in.
    intros x Hx. destruct (eq_dec y x) as [-> | _]; [contradiction | reflexivity].
Qed.

Lemma indexOf_NoDup (l : list A) :
  NoDup l ->
  map (JsArray.indexOf eq_dec l) l = map Z.of_nat (seq 0 (List.length l)).
Proof.
  intros Hnd. transitivity (map (JsArray.indexOfFrom eq_dec 0 l) l).
  - apply map_ext. reflexivity.
  - rewrite indexOfFrom_NoDup by assumption. apply map_ext. intros; lia.
Qed.

End IndexOfFacts.

(** ** Vertical ranks *)

Arguments JsArray.strictEq : simpl never.

Section Ranks.

Lemma ranksOf_length (bearings : list (option R)) :
  List.length (ranksOf bearings) = List.length bearings.
Proof. unfold ranksOf. apply length_map. Qed.

Lemma ranksOf_nth_error (bearings : list (option R)) (i : nat) (x : option R) :
  nth_error bearings i = Some x ->
  nth_error (ranksOf bearings) i
  = Some (JsArray.indexOf JsArray.strictEq (sortedBearings bearings) x).
Proof.
  intros H. unfold ranksOf.
  now rewrite (map_nth_error _ _ _ H).
Qed.

(** Among the bearings present, a smaller bearing is found earlier in the
    sorted copy, and only a smaller one is. *)
Lemma indexOf_sorted_order (bearings : list (option R)) (a b : R) :
  In (Some a) bearings -> In (Some b) bearings ->
  (a < b <->
   (JsArray.indexOf JsArray.strictEq (sortedBearings bearings) (Some a)
    < JsArray.indexOf JsArray.strictEq (sortedBearings bearings) (Some b))%Z).
Proof.
  intros Ha Hb.
  pose proof (sort_sorted orZero bearings) as Hs.
  pose proof (sort_perm orZero bearings) as Hp.
  change (JsArray.sort _ bearings) with (sortedBearings bearings) in Hs, Hp.
  apply (Permutation_in _ (Permutation_sym Hp)) in Ha.
  apply (Permutation_in _ (Permutation_sym Hp)) in Hb.
  destruct (indexOf_In JsArray.strictEq _ _ Ha) as [na [Ea Na]].
  destruct (indexOf_In JsArray.strictEq _ _ Hb) as [nb [Eb Nb]].
  rewrite Ea, Eb. split.
  - intros Hlt. destruct (lt_eq_lt_dec na nb) as [[Hn | Hn] | Hn].
    + lia.
    + subst nb. rewrite Na in Nb. injection Nb as Heq. lra.
    + pose proof (sorted_nth_error orZero _ Hs nb na _ _ Hn Nb Na) as H.
      simpl in H. lra.
  - intros Hlt. assert (Hn : (na < nb)%nat) by lia.
    pose proof (sorted_nth_error orZero _ Hs na nb _ _ Hn Na Nb) as H.
    simpl in H. destruct (Req_dec_T a b) as [-> | Hne]; [| lra].
    rewrite Ea in Eb. lia.
Qed.

Lemma ranksOf_permutation (bearings : list (option R)) :
  NoDup bearings ->
  Permutation (ranksOf bearings)
    (map Z.of_nat (seq 0 (List.length bearings))).
Proof.
  intros Hnd. pose proof (sort_perm orZero bearings) as Hp.
  change (JsArray.sort _ bearings) with (sortedBearings bearings) in Hp.
  unfold ranksOf.
  rewrite <- (Permutation_length Hp).
  rewrite <- (indexOf_NoDup JsArray.strictEq).
  - apply Permutation_map, Permutation_sym, Hp.
  - eapply Permutation_NoDup; [apply Permutation_sym, Hp | exact Hnd].
Qed.

(** Equal bearings get the same rank. *)
Lemma ranksOf_twice (x : option R) : ranksOf [x; x] = [0; 0]%Z.
Proof.
  unfold ranksOf, sortedBearings, JsArray.sort, JsArray.indexOf. simpl.
  destruct (Rle_dec (orZero x - orZero x) 0) as [_ | H]; [| lra].
  simpl. destruct (JsArray.strictEq x x) as [_ | H]; [reflexivity | contradiction].
Qed.

Lemma ranksOf_10_10_5 : ranksOf [Some 10; Some 10.5] = [0; 1]%Z.
Proof.
  unfold ranksOf, sortedBearings, JsArray.sort, JsArray.indexOf. simpl.
  destruct (Rle_dec (10 - 10.5) 0) as [_ | H]; [| lra].
  simpl.
  destruct (JsArray.strictEq (Some 10) (Some 10)) as [_ | H]; [| contradiction].
  destruct (JsArray.strictEq (Some 10) (Some 10.5)) as [H | _];
    [injection H; intros; lra |].
  destruct (JsArray.strictEq (Some 10.5) (Some 10.5)) as [_ | H];
    [reflexivity | contradiction].
Qed.

Lemma NoDup_map_Some (l : list R) : NoDup l -> NoDup (map Some l).
Proof.
  induction 1 as [| x l Hx Hnd IH]; simpl; constructor; [| exact IH].
  rewrite in_map_iff. intros [y [Hy Hin]]. injection Hy as ->. contradiction.
Qed.

Lemma beadings_known (s : State) (from : LatLng) :
  coords s = Some from ->
  beadings s
  = map (fun building => Some (bearingBetween from (position building)))
        (buildings s).
Proof. intros H. unfold beadings. now rewrite H. Qed.

Lemma beadings_setHeading (h : option R) (s : State) :
  beadings (setHeading h s) = beadings s.
Proof. reflexivity. Qed.

End Ranks.

(** C2, as the code has it: with a known user coordinate the ranks are one
    per building and follow the order of the absolute bearings (a building
    has a smaller rank than another exactly when its bearing is smaller),
    whatever the heading; when the bearings are pairwise distinct the ranks
    are a permutation of 0..N-1, so bearings 10 and 10.5 get ranks 0 and 1.
    Buildings with equal bearings share a rank. *)
Theorem vertical_rank_order (s : State) (from : LatLng) :
  coords s = Some from ->
  let bearing := fun building => bearingBetween from (position building) in
  List.length (beadingRanks s) = List.length (buildings s)
  /\ (forall i j bi bj,
        nth_error (buildings s) i = Some bi ->
        nth_error (buildings s) j = Some bj ->
        (bearing bi < bearing bj
         <-> (nth i (beadingRanks s) 0 < nth j (beadingRanks s) 0)%Z))
  /\ (forall h,
        beadingRanks (setHeading h s) = beadingRanks s
        /\ forall index,
             Marker.verticalOffset (setHeading h s) index
             = Marker.verticalOffset s index)
  /\ (NoDup (map bearing (buildings s)) ->
      Permutation (beadingRanks s)
        (map Z.of_nat (seq 0 (List.length (buildings s)))))
  /\ ranksOf [Some 10; Some 10.5] = [0; 1]%Z.
Proof.
  intros Hc bearing. pose proof (beadings_known s from Hc) as Hb.
  fold bearing in Hb.
  assert (Hm : beadings s = map Some (map bearing (buildings s)))
    by (rewrite Hb, map_map; reflexivity).
  split; [| split; [| split; [| split]]].
  - unfold beadingRanks. now rewrite ranksOf_length, Hb, length_map.
  - intros i j bi bj Hi Hj. unfold beadingRanks.
    assert (Hi' : nth_error (beadings s) i = Some (Some (bearing bi)))
      by (rewrite Hb;
          now apply (map_nth_error (fun b => Some (bearingBetween from (position b))))).
    assert (Hj' : nth_error (beadings s) j = Some (Some (bearing bj)))
      by (rewrite Hb;
          now apply (map_nth_error (fun b => Some (bearingBetween from (position b))))).
    rewrite (nth_error_nth _ _ _ (ranksOf_nth_error _ _ _ Hi')).
    rewrite (nth_error_nth _ _ _ (ranksOf_nth_error _ _ _ Hj')).
    apply indexOf_sorted_order; eapply nth_error_In; eassumption.
  - intros h. split; reflexivity.
  - intros Hnd. unfold beadingRanks.
    replace (List.length (buildings s)) with (List.length (beadings s))
      by (now rewrite Hb, length_map).
    apply ranksOf_permutation. rewrite Hm.
    apply NoDup_map_Some, Hnd.
  - apply ranksOf_10_10_5.
Qed.

(** ** Bearings along a meridian *)

Section Meridian.
Variables from to : LatLng.
Hypothesis same_lng : lng to = lng from.

Lemma meridian_atan2_args :
  bearingBetween from to
  = js_rem ((atan2 0 (sin (toRad (lat to - lat from))) * 180) / PI + 360) 360.
Proof.
  unfold bearingBetween. rewrite same_lng.
  replace (lng from - lng from) with 0 by lra.
  rewrite toRad_0, sin_0, cos_0, toRad_minus, sin_minus.
  do 2 f_equal. f_equal. f_equal. f_equal; lra.
Qed.

Lemma bearing_due_north :
  0 < lat to - lat from < 180 -> bearingBetween from to = 0.
Proof.
  intros [Hlo Hhi]. rewrite meridian_atan2_args. pose proof PI_RGT_0 as Hpi.
  rewrite atan2_0_pos.
  - replace (0 * 180 / PI + 360) with 360 by (unfold Rdiv; lra).
    rewrite (js_rem_nonneg_eq 360 360 1); simpl; lra.
  - apply sin_gt_0; unfold toRad; nra.
Qed.

Lemma bearing_due_south :
  -180 < lat to - lat from < 0 -> bearingBetween from to = 180.
Proof.
  intros [Hlo Hhi]. rewrite meridian_atan2_args. pose proof PI_RGT_0 as Hpi.
  rewrite atan2_0_neg.
  - replace (PI * 180 / PI + 360) with 540 by (field; lra).
    rewrite (js_rem_nonneg_eq 540 360 1); simpl; lra.
  - apply sin_lt_0_var; unfold toRad; nra.
Qed.
End Meridian.

Lemma bearing_northYes : bearingBetween here (position northYes) = 0.
Proof. apply bearing_due_north; simpl; lra. Qed.

Lemma bearing_southCafe : bearingBetween here (position southCafe) = 180.
Proof. apply bearing_due_south; simpl; lra. Qed.

Lemma vertical_rank_order_witness :
  coords (found [northYes; southCafe]) = Some here
  /\ Permutation (beadingRanks (found [northYes; southCafe])) [0; 1]%Z.
Proof.
  split; [reflexivity |].
  apply (vertical_rank_order (found [northYes; southCafe]) here eq_refl).
  simpl. rewrite bearing_northYes, bearing_southCafe.
  repeat constructor; simpl; intuition lra.
Defined.

(** C2 as it is worded fails for a list in which two buildings have the
    same bearing: both get rank 0 and rank 1 is not used. *)
Lemma vertical_rank_shared_by_equal_bearings :
  coords (found [northYes; northAnnex]) = Some here
  /\ beadingRanks (found [northYes; northAnnex]) = [0; 0]%Z
  /\ ~ Permutation (beadingRanks (found [northYes; northAnnex]))
         (map Z.of_nat (seq 0 (List.length (buildings (found [northYes; northAnnex]))))).
Proof.
  assert (H : beadingRanks (found [northYes; northAnnex]) = [0; 0]%Z)
    by apply ranksOf_twice.
  split; [reflexivity | split; [exact H |]].
  rewrite H. simpl. intros Hp.
  apply Permutation_sym in Hp.
  pose proof (Permutation_in 1%Z Hp) as Hin. simpl in Hin.
  destruct Hin as [Hin | [Hin | []]]; [now right; left | discriminate | discriminate].
Qed.

(** ** Building markers *)

Section Markers.

Lemma ranksOf_ascending_pair (a b : R) :
  a < b -> ranksOf [Some a; Some b] = [0; 1]%Z.
Proof.
  intros Hab.
  unfold ranksOf, sortedBearings, JsArray.sort, JsArray.indexOf. simpl.
  destruct (Rle_dec (a - b) 0) as [_ | H]; [| lra].
  simpl.
  destruct (JsArray.strictEq (Some a) (Some a)) as [_ | H]; [| contradiction].
  destruct (JsArray.strictEq (Some a) (Some b)) as [H | _];
    [injection H; intros; lra |].
  destruct (JsArray.strictEq (Some b) (Some b)) as [_ | H];
    [reflexivity | contradiction].
Qed.

(** The list view and the data keep every building; a marker shows a
    building that passed the filter, with the distance to that building. *)
Lemma marker_shows_filtered_building (s : State) (from : LatLng) (m : MarkerView) :
  In m (buildingMarkers s from) ->
  In (shown m) (buildings s)
  /\ Building.label (shown m) <> "yes"%string
  /\ meters m = distanceBetween from (position (shown m)).
Proof.
  unfold buildingMarkers. rewrite in_map_iff.
  intros [[index building] [<- Hin]]. simpl.
  apply in_combine_r in Hin. unfold markerBuildings in Hin.
  apply filter_In in Hin. destruct Hin as [Hin Hl].
  split; [exact Hin | split; [| reflexivity]].
  intros Heq. rewrite Heq in Hl. discriminate.
Qed.

Lemma markers_no_more_than_buildings (s : State) :
  (List.length (markerBuildings s) <= List.length (beadings s))%nat.
Proof.
  unfold markerBuildings, beadings. rewrite length_map. apply filter_length_le.
Qed.

End Markers.

(** C7: the label filter acts on the marker list only (the data and the
    list view keep the unnamed building), and the distance of a marker is
    that of its own building; but the marker reads its bearing and its rank
    at its position in the filtered list.  With an unnamed building due
    north listed before a cafe due south, the only marker shown is the
    cafe's, drawn with the bearing 0 and the rank 0 of the unnamed building:
    dead ahead at offset -240, where its own bearing 180 and rank 1 give
    -180 and -216. *)
Theorem marker_reads_position_in_filtered_list :
  let s := found [northYes; southCafe] in
  radialView s = Some (cardinalMarkers s, buildingMarkers s here)
  /\ map Building.label (buildings s) = ["yes"; "Cafe"]%string
  /\ List.length (BuildingsList s) = 2%nat
  /\ map shown (buildingMarkers s here) = [southCafe]
  /\ map meters (buildingMarkers s here)
     = [distanceBetween here (position southCafe)]
  /\ bearingBetween here (position northYes) = 0
  /\ bearingBetween here (position southCafe) = 180
  /\ beadingRanks s = [0; 1]%Z
  /\ Marker.bearing s 0 = 0
  /\ map relativeValue (buildingMarkers s here) = [0]
  /\ relativeAngle 180 0 = -180
  /\ map top (buildingMarkers s here) = [-240]%Z.
Proof.
  intros s.
  assert (Hr : beadingRanks s = [0; 1]%Z).
  { unfold beadingRanks, s, found, beadings. cbn [buildings coords setBuildings setCoords map].
    rewrite bearing_northYes, bearing_southCafe.
    apply ranksOf_ascending_pair. lra. }
  assert (Hb : Marker.bearing s 0 = 0).
  { unfold Marker.bearing, s, found, beadings.
    cbn [buildings coords setBuildings setCoords map nth orZero].
    apply bearing_northYes. }
  assert (Hrel : Marker.relative s 0 = 0).
  { unfold Marker.relative. rewrite Hb.
    unfold s, found. cbn [heading setBuildings setCoords initial orZero].
    replace (0 - 0 + 540) with 540 by lra.
    rewrite (js_rem_nonneg_eq 540 360 1); simpl; lra. }
  assert (Htop : Marker.verticalOffset s 0 = (-240)%Z).
  { unfold Marker.verticalOffset. rewrite Hr. reflexivity. }
  repeat split; try reflexivity.
  - apply bearing_northYes.
  - apply bearing_southCafe.
  - exact Hr.
  - exact Hb.
  - unfold buildingMarkers. cbn [markerBuildings]. unfold markerBuildings, s, found.
    cbn. f_equal. exact Hrel.
  - unfold relativeAngle. rmod_at 2%Z. lra.
  - unfold buildingMarkers, markerBuildings, s, found. cbn. f_equal. exact Htop.
Qed.

(** ** The smoothed heading *)

Section Smoothing.

Lemma sinCosSums_from (history : list R) (a b : R) :
  fold_left
    (fun sums deg =>
       let rad := (deg * PI) / 180 in
       (fst sums + sin rad, snd sums + cos rad))
    history (a, b)
  = (a + sum (map sin (map toRad history)),
     b + sum (map cos (map toRad history))).
Proof.
  revert a b. induction history as [| deg l IH]; intros a b; simpl.
  - f_equal; lra.
  - rewrite IH. unfold toRad. f_equal; lra.
Qed.

Lemma sinCosSums_spec (history : list R) :
  sinCosSums history
  = (sum (map sin (map toRad history)), sum (map cos (map toRad history))).
Proof.
  unfold sinCosSums. rewrite sinCosSums_from. f_equal; lra.
Qed.

Lemma updateHeading_history (s : State) :
  headingHistory (updateHeading s)
  = match rawHeading s with
    | Some v => pushed (headingHistory s) v
    | None => headingHistory s
    end.
Proof.
  unfold updateHeading. destruct (rawHeading s) as [v |]; [| reflexivity].
  fold (pushed (headingHistory s) v).
  destruct (sinCosSums (pushed (headingHistory s) v)). reflexivity.
Qed.

Lemma updateHeading_heading (s : State) :
  heading (updateHeading s)
  = match rawHeading s with
    | Some _ => Some (circularMean (headingHistory (updateHeading s)))
    | None => heading s
    end.
Proof.
  rewrite updateHeading_history. unfold updateHeading.
  destruct (rawHeading s) as [v |]; [| reflexivity].
  fold (pushed (headingHistory s) v).
  rewrite sinCosSums_spec. cbn [heading requestAnimationFrame setHeading
    setHeadingAnimationId setFrames setNextFrame setHeadingHistory].
  f_equal. unfold circularMean.
  match goal with
  | |- js_rem ((atan2 ?y ?x * 180) / PI + 360) 360 = _ =>
      pose proof (degrees_bounds _ (atan2_bounds y x)) as Hd
  end.
  rewrite js_rem_shift by lra. reflexivity.
Qed.

Lemma circularMean_bounds (samples : list R) : 0 <= circularMean samples < 360.
Proof. unfold circularMean. apply Rmod_bounds. lra. Qed.


End Smoothing.


(** ** Ingesting a sample *)

(** Splits on what [handleOrientation] tests: the value of the event, the
    heading so far, the error message. *)
Ltac handle_cases event s :=
  unfold handleOrientation;
  destruct (value event);
  [ destruct s as [? ? ? ? ? ? h ? oe ? ? ? ? ? ? ? ? ?];
    cbn; destruct h; cbn; destruct (truthy oe); cbn
  | ].

Section Ingest.

Lemma handleOrientation_frame (event : DeviceOrientationEvent) (s : State) :
  headingHistory (handleOrientation event s) = headingHistory s
  /\ frames (handleOrientation event s) = frames s
  /\ listeners (handleOrientation event s) = listeners s
  /\ cleanups (handleOrientation event s) = cleanups s
  /\ headingAnimationId (handleOrientation event s) = headingAnimationId s
  /\ orientationActive (handleOrientation event s) = orientationActive s
  /\ awaiting (handleOrientation event s) = awaiting s
  /\ nextFrame (handleOrientation event s) = nextFrame s.
Proof.
  handle_cases event s; repeat split.
Qed.

Lemma handleOrientation_rawHeading (event : DeviceOrientationEvent) (s : State) :
  rawHeading (handleOrientation event s)
  = match value event with Some v => Some v | None => rawHeading s end.
Proof.
  handle_cases event s; reflexivity.
Qed.

(** A sample never replaces a heading; it becomes the heading when there
    is none yet. *)
Lemma handleOrientation_heading (event : DeviceOrientationEvent) (s : State) :
  heading (handleOrientation event s)
  = match heading s with Some h => Some h | None => value event end.
Proof.
  handle_cases event s; try reflexivity. now destruct (heading s).
Qed.

Lemma fold_left_invariant {X : Type} (P : State -> Prop)
      (f : State -> X -> State) (l : list X) :
  (forall s x, P s -> P (f s x)) -> forall s, P s -> P (fold_left f l s).
Proof.
  intros Hf. induction l as [| x l IH]; intros s Hs; simpl; auto.
Qed.

Lemma step_unsampled (e : Event) (s : State) :
  silent e -> unsampled s -> unsampled (step e s).
Proof.
  intros He Hs. destruct e as [env | result | event | |]; simpl.
  - unfold startOrientation, beginTracking.
    destruct (negb (supported env)); [exact Hs |].
    cbn [orientationActive setOrientationError].
    destruct (orientationActive s); [exact Hs |].
    destruct (needsPermission env); exact Hs.
  - unfold resumeOrientation. destruct (awaiting s); [exact Hs |].
    destruct result; exact Hs.
  - unfold dispatchOrientation. apply fold_left_invariant; [| exact Hs].
    intros s' _ [Hr Hh]. simpl in He. split.
    + now rewrite handleOrientation_rawHeading, He.
    + now rewrite handleOrientation_heading, Hh, He.
  - unfold animationFrame. apply fold_left_invariant; [| exact Hs].
    intros s' _ [Hr Hh]. split.
    + unfold updateHeading. now rewrite Hr.
    + now rewrite updateHeading_heading, Hr.
  - unfold dispose. apply fold_left_invariant; [| exact Hs].
    intros s' call Hs'. unfold cleanup.
    cbn [headingAnimationId setOrientationActive setListeners].
    destruct (headingAnimationId s'); exact Hs'.
Qed.

Lemma run_unsampled (es : list Event) (s : State) :
  Forall silent es -> unsampled s -> unsampled (run es s).
Proof.
  intros Hes. revert s. induction Hes as [| e es He Hes IH]; intros s Hs.
  - exact Hs.
  - simpl. apply IH. now apply step_unsampled.
Qed.

End Ingest.

(** C4, as the code has it: ingesting a sample stores it as the raw value
    and leaves the history and the scheduled frames alone, so it recomputes
    nothing; but when there is no heading yet the sample itself becomes the
    heading, and a heading already there is kept.  From the initial state
    the heading is therefore null as long as no sample has arrived, and is
    set by the first sample, without waiting for a tick. *)
Theorem ingest_records_and_seeds (es : list Event) :
  Forall silent es ->
  heading (run es initial) = None
  /\ (forall event s,
        rawHeading (handleOrientation event s)
        = match value event with Some v => Some v | None => rawHeading s end
        /\ headingHistory (handleOrientation event s) = headingHistory s
        /\ frames (handleOrientation event s) = frames s
        /\ heading (handleOrientation event s)
           = match heading s with Some h => Some h | None => value event end).
Proof.
  intros Hes. split.
  - apply (run_unsampled es initial Hes). split; reflexivity.
  - intros event s.
    pose proof (handleOrientation_frame event s) as [Hh [Hf _]].
    split; [apply handleOrientation_rawHeading |].
    split; [exact Hh |]. split; [exact Hf |].
    apply handleOrientation_heading.
Qed.

Lemma ingest_records_and_seeds_witness :
  Forall silent [Click plainHost; Frame; Frame]
  /\ heading (run [Click plainHost; Frame; Frame] initial) = None.
Proof.
  assert (H : Forall silent [Click plainHost; Frame; Frame])
    by (repeat constructor).
  split; [exact H |].
  apply (ingest_records_and_seeds [Click plainHost; Frame; Frame] H).
Defined.

(** C4 as it is worded fails: after a start, the first sample sets the
    heading although no tick has run since. *)
Lemma heading_set_by_first_sample :
  heading (run [Click plainHost; Sensor (reading 90)] initial) = Some 90
  /\ ticks [Click plainHost; Sensor (reading 90)] initial = 0%nat
  /\ headingHistory (run [Click plainHost; Sensor (reading 90)] initial) = [].
Proof. repeat split. Qed.

(** ** The bounded history *)

Section History.

Lemma pushed_length (h : list R) (v : R) :
  (List.length h <= headingHistorySize)%nat ->
  (List.length (pushed h v) <= headingHistorySize)%nat.
Proof.
  intros Hh. unfold pushed.
  destruct (Nat.ltb_spec headingHistorySize (List.length (h ++ [v]))) as [Hlt | Hle].
  - destruct (h ++ [v]) as [| x l] eqn:E; simpl in *; [lia |].
    assert (Hl : List.length (h ++ [v]) = S (List.length l)) by (now rewrite E).
    rewrite length_app in Hl. simpl in Hl. lia.
  - exact Hle.
Qed.

Lemma pushed_recent (h : list R) (v : R) :
  (List.length h <= headingHistorySize)%nat ->
  pushed h v = recent headingHistorySize (h ++ [v]).
Proof.
  intros Hh. unfold pushed, recent.
  assert (Hl : List.length (h ++ [v]) = S (List.length h))
    by (rewrite length_app; simpl; lia).
  destruct (Nat.ltb_spec headingHistorySize (List.length (h ++ [v]))) as [Hlt | Hle].
  - replace (List.length (h ++ [v]) - headingHistorySize)%nat with 1%nat by lia.
    now destruct (h ++ [v]).
  - now replace (List.length (h ++ [v]) - headingHistorySize)%nat with 0%nat by lia.
Qed.

Lemma recent_drop_prefix {X : Type} (n : nat) (a m : list X) :
  (n <= List.length m)%nat -> recent n (a ++ m) = recent n m.
Proof.
  intros Hn. unfold recent. rewrite length_app, skipn_app.
  rewrite skipn_all2 by lia. simpl. f_equal. lia.
Qed.

Lemma recent_app {X : Type} (n : nat) (l l' : list X) :
  recent n (recent n l ++ l') = recent n (l ++ l').
Proof.
  destruct (Nat.le_gt_cases (List.length l) n) as [Hle | Hgt].
  - unfold recent at 2.
    now replace (List.length l - n)%nat with 0%nat by lia.
  - rewrite <- (firstn_skipn (List.length l - n) l) at 2.
    rewrite <- app_assoc. symmetry. apply recent_drop_prefix.
    rewrite length_app. unfold recent. rewrite length_skipn. lia.
Qed.

Lemma beginTracking_history (s : State) :
  headingHistory (beginTracking s) = [].
Proof. reflexivity. Qed.

Lemma cleanup_history (call : nat) (s : State) :
  headingHistory (cleanup call s) = headingHistory s.
Proof.
  unfold cleanup. cbn [headingAnimationId setOrientationActive setListeners].
  now destruct (headingAnimationId s).
Qed.

Lemma step_bounded (e : Event) (s : State) : bounded s -> bounded (step e s).
Proof.
  unfold bounded. intros Hs.
  destruct e as [env | result | event | |]; simpl.
  - unfold startOrientation.
    destruct (negb (supported env)); [exact Hs |].
    cbn [orientationActive setOrientationError].
    destruct (orientationActive s); [exact Hs |].
    destruct (needsPermission env); [exact Hs |].
    rewrite beginTracking_history. simpl. lia.
  - unfold resumeOrientation. destruct (awaiting s); [exact Hs |].
    destruct result; [| exact Hs].
    rewrite beginTracking_history. simpl. lia.
  - unfold dispatchOrientation.
    apply (fold_left_invariant bounded); [| exact Hs].
    intros s' _ Hs'. unfold bounded.
    now rewrite (proj1 (handleOrientation_frame event s')).
  - unfold animationFrame.
    apply (fold_left_invariant bounded); [| exact Hs].
    intros s' _ Hs'. unfold bounded. rewrite updateHeading_history.
    destruct (rawHeading s'); [now apply pushed_length | exact Hs'].
  - unfold dispose.
    apply (fold_left_invariant bounded); [| exact Hs].
    intros s' call Hs'. unfold bounded. now rewrite cleanup_history.
Qed.

Lemma run_bounded (es : list Event) (s : State) :
  bounded s -> bounded (run es s).
Proof.
  revert s. induction es as [| e es IH]; intros s Hs; simpl.
  - exact Hs.
  - apply IH. now apply step_bounded.
Qed.

Lemma updateHeading_host (s : State) :
  listeners (updateHeading s) = listeners s
  /\ frames (updateHeading s) = frames s ++ [nextFrame s]
  /\ headingAnimationId (updateHeading s) = Some (nextFrame s)
  /\ nextFrame (updateHeading s) = S (nextFrame s)
  /\ cleanups (updateHeading s) = cleanups s
  /\ orientationActive (updateHeading s) = orientationActive s
  /\ awaiting (updateHeading s) = awaiting s.
Proof.
  unfold updateHeading. destruct (rawHeading s); [| repeat split].
  destruct (sinCosSums _). repeat split.
Qed.

Lemma sample_then_frame (s : State) (v : R) :
  singleLoop s -> bounded s ->
  let s' := run [Sensor (reading v); Frame] s in
  singleLoop s' /\ bounded s'
  /\ headingHistory s' = recent headingHistorySize (headingHistory s ++ [v])
  /\ heading s' = Some (circularMean (headingHistory s')).
Proof.
  intros [[call Hl] [id Hf]] Hb s'.
  assert (Hs' : s' = updateHeading (setFrames [] (handleOrientation (reading v) s))).
  { unfold s'. cbn [run fold_left step].
    unfold dispatchOrientation. rewrite Hl. cbn [fold_left].
    unfold animationFrame.
    rewrite (proj1 (proj2 (handleOrientation_frame (reading v) s))), Hf.
    reflexivity. }
  pose proof (handleOrientation_frame (reading v) s) as [Hh [_ [Hli _]]].
  pose proof (handleOrientation_rawHeading (reading v) s) as Hr.
  cbn [value reading webkitCompassHeading] in Hr.
  assert (Hhist : headingHistory s' = pushed (headingHistory s) v).
  { rewrite Hs', updateHeading_history.
    cbn [rawHeading headingHistory setFrames]. now rewrite Hr, Hh. }
  split; [| split; [| split]].
  - pose proof (updateHeading_host
                  (setFrames [] (handleOrientation (reading v) s)))
      as [Ul [Uf _]].
    rewrite <- Hs' in Ul, Uf. split.
    + exists call. rewrite Ul. cbn [listeners setFrames]. now rewrite Hli.
    + eexists. rewrite Uf. reflexivity.
  - unfold bounded. rewrite Hhist. now apply pushed_length.
  - rewrite Hhist. now apply pushed_recent.
  - rewrite Hs' at 1. rewrite updateHeading_heading.
    cbn [rawHeading setFrames]. rewrite Hr. now rewrite <- Hs'.
Qed.

Lemma feed_history (samples : list R) :
  forall s, singleLoop s -> bounded s ->
  headingHistory (run (feed samples) s)
  = recent headingHistorySize (headingHistory s ++ samples)
  /\ (samples <> [] ->
      heading (run (feed samples) s)
      = Some (circularMean (headingHistory (run (feed samples) s)))).
Proof.
  induction samples as [| v vs IH]; intros s Hs Hb.
  - split; [| congruence]. simpl. rewrite app_nil_r. unfold recent.
    unfold bounded in Hb.
    now replace (List.length (headingHistory s) - headingHistorySize)%nat
      with 0%nat by lia.
  - destruct (sample_then_frame s v Hs Hb) as [Hs' [Hb' [Hh' Hm']]].
    change (run (feed (v :: vs)) s)
      with (run (feed vs) (run [Sensor (reading v); Frame] s)).
    destruct (IH _ Hs' Hb') as [IHh IHm]. split.
    + rewrite IHh, Hh', recent_app, <- app_assoc. reflexivity.
    + intros _. destruct vs as [| v' vs'].
      * exact Hm'.
      * apply IHm. discriminate.
Qed.

End History.

(** C6: in every state the component can reach the history holds at most
    12 samples; a push onto a full history drops the oldest sample; and
    after 13 samples, each followed by a tick, the history is the last 12
    and the heading is their circular mean, whatever the first sample
    was. *)
Theorem heading_history_bounded :
  (forall es : list Event,
      (List.length (headingHistory (run es initial)) <= 12)%nat)
  /\ (forall s v oldest rest,
        rawHeading s = Some v ->
        headingHistory s = oldest :: rest ->
        List.length rest = 11%nat ->
        headingHistory (updateHeading s) = rest ++ [v])
  /\ (forall first later,
        List.length later = 12%nat ->
        headingHistory (run (feed (first :: later)) listening) = later
        /\ heading (run (feed (first :: later)) listening)
           = Some (circularMean later)).
Proof.
  split; [| split].
  - intros es. apply (run_bounded es initial). unfold bounded. simpl. lia.
  - intros s v oldest rest Hr Hh Hl.
    rewrite updateHeading_history, Hr, Hh. unfold pushed.
    destruct (Nat.ltb_spec headingHistorySize
                (List.length ((oldest :: rest) ++ [v]))) as [_ | Hle].
    + reflexivity.
    + simpl in Hle. rewrite length_app in Hle. simpl in Hle.
      unfold headingHistorySize in Hle. lia.
  - intros first later Hl.
    assert (Hs : singleLoop listening)
      by (split; [exists 0%nat | exists 0%nat]; reflexivity).
    assert (Hb : bounded listening) by (unfold bounded; simpl; lia).
    destruct (feed_history (first :: later) listening Hs Hb) as [Hh Hm].
    assert (Hlater : headingHistory (run (feed (first :: later)) listening) = later).
    { rewrite Hh. unfold recent. cbn [headingHistory listening app].
      change (headingHistory listening) with (@nil R). cbn [app List.length].
      rewrite Hl. reflexivity. }
    split; [exact Hlater |].
    rewrite Hm by discriminate. now rewrite Hlater.
Qed.

(** ** Starting and stopping *)

Section StartStop.

Lemma setOrientationError_frame (msg : string) (s : State) :
  tracking (setOrientationError msg s) = tracking s
  /\ searchFlow (setOrientationError msg s) = searchFlow s
  /\ awaiting (setOrientationError msg s) = awaiting s
  /\ orientationError (setOrientationError msg s) = msg.
Proof. repeat split. Qed.

Lemma Idle_tracking (s s' : State) : tracking s' = tracking s -> Idle s -> Idle s'.
Proof.
  unfold tracking, Idle. intros H [Ha [Hl Hf]].
  injection H as -> -> -> _ _ _ _ _. auto.
Qed.

Lemma startOrientation_unsupported (needs : bool) (s : State) :
  startOrientation {| supported := false; needsPermission := needs |} s
  = setOrientationError unsupportedMessage s.
Proof. reflexivity. Qed.

Lemma startOrientation_asking (s : State) :
  tracking (startOrientation askingHost s) = tracking s
  /\ searchFlow (startOrientation askingHost s) = searchFlow s.
Proof.
  unfold startOrientation. cbn [supported askingHost negb needsPermission].
  cbn [orientationActive setOrientationError].
  destruct (orientationActive s); repeat split.
Qed.

Lemma resumeOrientation_denied (s : State) :
  tracking (resumeOrientation denied s) = tracking s
  /\ searchFlow (resumeOrientation denied s) = searchFlow s
  /\ (awaiting s <> 0%nat ->
      orientationError (resumeOrientation denied s) = deniedMessage).
Proof.
  unfold resumeOrientation. destruct (awaiting s); repeat split.
  intros H. now contradiction H.
Qed.

End StartStop.

(** C8: when the orientation API is missing, [startOrientation] only sets
    its error message; when consent is required the call registers nothing
    before the answer, and on a refusal it only sets the other error
    message.  In both cases the listeners, the requested frames, the
    activity flag, the cleanups, the history and the headings are as before,
    so an idle estimator stays idle, and the signals of the location search
    are untouched.  The two messages differ and are not empty. *)
Theorem start_failure_stays_idle :
  (forall needs s,
      let s' := startOrientation {| supported := false; needsPermission := needs |} s in
      orientationError s' = unsupportedMessage
      /\ tracking s' = tracking s
      /\ searchFlow s' = searchFlow s
      /\ (Idle s -> Idle s'))
  /\ (forall s,
        let s' := startOrientation askingHost s in
        tracking s' = tracking s /\ searchFlow s' = searchFlow s
        /\ (Idle s -> Idle s'))
  /\ (forall s,
        let s' := resumeOrientation denied s in
        (awaiting s <> 0%nat -> orientationError s' = deniedMessage)
        /\ tracking s' = tracking s
        /\ searchFlow s' = searchFlow s
        /\ (Idle s -> Idle s'))
  /\ (let s' := run [Click askingHost; Permission denied] initial in
      orientationError s' = deniedMessage /\ Idle s'
      /\ ticks [Click askingHost; Permission denied; Frame; Frame] initial = 0%nat)
  /\ unsupportedMessage <> ""%string
  /\ deniedMessage <> ""%string
  /\ unsupportedMessage <> deniedMessage.
Proof.
  split; [| split; [| split; [| split]]].
  - intros needs s s'. unfold s'. rewrite startOrientation_unsupported.
    destruct (setOrientationError_frame unsupportedMessage s) as [Ht [Hs [_ He]]].
    split; [exact He | split; [exact Ht | split; [exact Hs |]]].
    now apply Idle_tracking.
  - intros s s'. destruct (startOrientation_asking s) as [Ht Hs].
    split; [exact Ht | split; [exact Hs |]]. now apply Idle_tracking.
  - intros s s'. destruct (resumeOrientation_denied s) as [Ht [Hs He]].
    split; [exact He | split; [exact Ht | split; [exact Hs |]]].
    now apply Idle_tracking.
  - repeat split.
  - repeat split; discriminate.
Qed.


(** ** The building search endpoint *)

Section BuildingsEndpoint.
Import Backend.

Lemma clamp_bounds (r : R) : 50 <= Rmin (Rmax r 50) 1000 <= 1000.
Proof.
  unfold Rmin, Rmax.
  destruct (Rle_dec r 50); destruct (Rle_dec _ 1000); lra.
Qed.

Lemma clamp_inside (r : R) : 50 <= r <= 1000 -> Rmin (Rmax r 50) 1000 = r.
Proof.
  intros H. unfold Rmin, Rmax.
  destruct (Rle_dec r 50); destruct (Rle_dec _ 1000); lra.
Qed.

End BuildingsEndpoint.

(** C10, as the code has it: a request whose [lat] or [lng] does not parse
    to a finite number is answered 400 and nothing is sent upstream.
    Otherwise one query is sent, with the radius that is the parsed one when
    finite and 200 when not, clamped into [[50, 1000]] (unchanged when
    already inside); when the upstream answer is ok the response is 200 and
    its body carries this clamped radius, and when it is not the response is
    502 with an error body that carries no radius. *)
Theorem buildings_request_validation
        (Number : option string -> Backend.Num)
        (fetch : Backend.OverpassQuery -> Backend.UpstreamResponse)
        (q : Backend.Query) :
  let response := fst (Backend.handler Number fetch q) in
  let sent := snd (Backend.handler Number fetch q) in
  match Number (Backend.q_lat q), Number (Backend.q_lng q) with
  | Backend.Finite latNum, Backend.Finite lngNum =>
      let radiusMeters :=
        match Number (Backend.q_radius q) with
        | Backend.Finite r => r
        | _ => 200
        end in
      exists clampedRadius,
        50 <= clampedRadius <= 1000
        /\ (50 <= radiusMeters <= 1000 -> clampedRadius = radiusMeters)
        /\ (radiusMeters < 50 -> clampedRadius = 50)
        /\ (1000 < radiusMeters -> clampedRadius = 1000)
        /\ sent = [ {| Backend.around := clampedRadius;
                       Backend.aroundLat := latNum;
                       Backend.aroundLng := lngNum |} ]
        /\ (if Backend.ok (fetch {| Backend.around := clampedRadius;
                                    Backend.aroundLat := latNum;
                                    Backend.aroundLng := lngNum |})
            then Backend.code response = 200%nat
                 /\ Backend.echoedRadius response = Some clampedRadius
            else Backend.code response = 502%nat
                 /\ Backend.echoedRadius response = None)
  | _, _ =>
      Backend.code response = 400%nat
      /\ Backend.body response = Backend.ErrorBody "Invalid coordinates."
      /\ sent = []
  end.
Proof.
  intros response sent. unfold response, sent, Backend.handler.
  destruct (Number (Backend.q_lat q)) as [latNum | | |];
    try (repeat split; reflexivity).
  destruct (Number (Backend.q_lng q)) as [lngNum | | |];
    try (repeat split; reflexivity).
  cbv zeta.
  set (radiusMeters := match Number (Backend.q_radius q) with
                       | Backend.Finite r => r
                       | _ => 200
                       end).
  exists (Rmin (Rmax radiusMeters 50) 1000).
  split; [apply clamp_bounds |].
  split; [apply clamp_inside |].
  split; [intros H; unfold Rmin, Rmax;
          destruct (Rle_dec radiusMeters 50); destruct (Rle_dec _ 1000); lra |].
  split; [intros H; unfold Rmin, Rmax;
          destruct (Rle_dec radiusMeters 50); destruct (Rle_dec _ 1000); lra |].
  destruct (Backend.ok (fetch _)); repeat split.
Qed.

(** C10 as it is worded fails for a request with valid coordinates whose
    upstream query is not answered ok: the response is 502 and its body has
    no radius. *)
Lemma failed_upstream_echoes_no_radius :
  let Number := fun _ : option string => Backend.Finite 35 in
  let fetch := fun _ : Backend.OverpassQuery =>
                 {| Backend.ok := false; Backend.elements := None |} in
  let q := {| Backend.q_lat := Some "35"%string;
              Backend.q_lng := Some "35"%string;
              Backend.q_radius := Some "35"%string |} in
  Backend.code (fst (Backend.handler Number fetch q)) = 502%nat
  /\ Backend.echoedRadius (fst (Backend.handler Number fetch q)) = None
  /\ List.length (snd (Backend.handler Number fetch q)) = 1%nat.
Proof. repeat split. Qed.

(** ** Stopping after starts that do not overlap *)

Section Orderly.

Lemma remove_single (n : nat) : remove Nat.eq_dec n [n] = [].
Proof. simpl. destruct (Nat.eq_dec n n); [reflexivity | contradiction]. Qed.

Lemma orderly_ext (s s' : State) :
  orientationActive s' = orientationActive s ->
  listeners s' = listeners s ->
  frames s' = frames s ->
  cleanups s' = cleanups s ->
  headingAnimationId s' = headingAnimationId s ->
  awaiting s' = awaiting s ->
  orderly s -> orderly s'.
Proof.
  unfold orderly, resting, looping.
  intros -> -> -> -> -> ->. exact (fun H => H).
Qed.

Lemma beginTracking_looping (s : State) :
  resting s -> looping (beginTracking s) /\ awaiting (beginTracking s) = awaiting s.
Proof.
  intros [_ [Hl [Hf Hc]]]. split; [| reflexivity].
  split; [reflexivity |]. exists (nextCall s), (nextFrame s).
  unfold beginTracking, requestAnimationFrame. cbn. rewrite Hl, Hf, Hc.
  repeat split.
Qed.

Lemma inactive_resting (s : State) :
  orderly s -> orientationActive s = false -> resting s.
Proof.
  intros [_ [_ [H | [H _]]]] Ha; [exact H | congruence].
Qed.

Lemma cleanup_looping (call id : nat) (s : State) :
  listeners s = [call] -> frames s = [id] -> headingAnimationId s = Some id ->
  listeners (cleanup call s) = []
  /\ frames (cleanup call s) = []
  /\ orientationActive (cleanup call s) = false
  /\ headingAnimationId (cleanup call s) = None
  /\ cleanups (cleanup call s) = cleanups s
  /\ awaiting (cleanup call s) = awaiting s.
Proof.
  intros Hl Hf Hi. unfold cleanup, cancelAnimationFrame.
  cbn [headingAnimationId setOrientationActive setListeners].
  rewrite Hi.
  cbn [listeners frames orientationActive headingAnimationId cleanups awaiting
       setHeadingAnimationId setFrames setOrientationActive setListeners].
  rewrite Hl, Hf, !remove_single. repeat split.
Qed.

Lemma handleOrientation_orderly (event : DeviceOrientationEvent) (s : State) :
  orderly s -> orderly (handleOrientation event s).
Proof.
  pose proof (handleOrientation_frame event s)
    as [_ [Hf [Hl [Hc [Hi [Ha [Hw _]]]]]]].
  now apply orderly_ext.
Qed.

Lemma step_orderly (e : Event) (s : State) :
  match e with Click _ => awaiting s = 0%nat | _ => True end ->
  orderly s -> orderly (step e s).
Proof.
  intros He Hs. destruct e as [env | result | event | |]; simpl.
  - unfold startOrientation.
    destruct (negb (supported env)); [exact Hs |].
    cbn [orientationActive setOrientationError].
    destruct (orientationActive s) eqn:Ha; [exact Hs |].
    pose proof (inactive_resting s Hs Ha) as Hr.
    destruct (needsPermission env).
    + split; [cbn; lia |]. split; [intros _; exact Ha |]. left. exact Hr.
    + destruct (beginTracking_looping (setOrientationError "" s) Hr) as [Hl Hw].
      split; [rewrite Hw; cbn; lia |].
      split; [rewrite Hw; cbn; lia |]. right. exact Hl.
  - unfold resumeOrientation. destruct (awaiting s) as [| n] eqn:Hw; [exact Hs |].
    destruct Hs as [Hle [Hin Hshape]].
    assert (n = 0%nat) by lia. subst n.
    assert (Hr : resting s).
    { destruct Hshape as [H | [H _]]; [exact H |].
      rewrite (Hin Hw) in H. discriminate. }
    destruct result.
    + destruct (beginTracking_looping (setAwaiting 0 s) Hr) as [Hl Hw'].
      split; [rewrite Hw'; cbn; lia |].
      split; [rewrite Hw'; cbn; lia |]. right. exact Hl.
    + split; [cbn; lia |]. split; [cbn; lia |]. left. exact Hr.
  - unfold dispatchOrientation. apply fold_left_invariant; [| exact Hs].
    intros s' _. apply handleOrientation_orderly.
  - unfold animationFrame. destruct Hs as [Hle [Hin [Hr | Hl]]].
    + destruct Hr as [Ha [Hl [Hf Hc]]]. rewrite Hf. cbn [fold_left].
      split; [exact Hle |]. split; [exact Hin |]. left. repeat split; assumption.
    + destruct Hl as [Ha [call [id [Hl [Hc [Hf Hi]]]]]]. rewrite Hf.
      cbn [fold_left].
      pose proof (updateHeading_host (setFrames [] s))
        as [Ul [Uf [Ui [_ [Uc [Ua Uw]]]]]].
      split; [rewrite Uw; exact Hle |].
      split; [rewrite Uw, Ua; exact Hin |]. right.
      split; [rewrite Ua; exact Ha |].
      exists call, (nextFrame s).
      rewrite Ul, Uc, Uf, Ui. cbn. repeat split; assumption.
  - unfold dispose. destruct Hs as [Hle [Hin [Hr | Hl]]].
    + destruct Hr as [Ha [Hl [Hf Hc]]]. rewrite Hc. cbn [fold_left].
      split; [exact Hle |]. split; [exact Hin |]. left. repeat split; assumption.
    + destruct Hl as [Ha [call [id [Hl [Hc [Hf Hi]]]]]]. rewrite Hc.
      cbn [fold_left].
      destruct (cleanup_looping call id (setCleanups [] s) Hl Hf Hi)
        as [Cl [Cf [Ca [Ci [Cc Cw]]]]].
      split; [rewrite Cw; exact Hle |].
      split; [intros _; exact Ca |]. left. repeat split; assumption.
Qed.

Lemma run_orderly (es : list Event) :
  forall s, exclusive es s -> orderly s -> orderly (run es s).
Proof.
  induction es as [| e es IH]; intros s Hex Hs; [exact Hs |].
  destruct Hex as [He Hex]. simpl. apply IH; [exact Hex |].
  now apply step_orderly.
Qed.




End Orderly.



(** ** More on bearing and distance *)

Section Angles.

Lemma atan_tan_shift_up (x : R) :
  PI / 2 < x <= PI -> atan (sin x / cos x) + PI = x.
Proof.
  intros Hx. pose proof PI_RGT_0 as Hpi.
  replace (sin x / cos x) with (tan (x - PI)).
  - rewrite atan_tan; lra.
  - unfold tan. rewrite sin_minus, cos_minus, sin_PI, cos_PI.
    assert (cos x < 0) by (apply cos_lt_0; lra).
    field. lra.
Qed.

Lemma atan_tan_shift_down (x : R) :
  - PI < x < - (PI / 2) -> atan (sin x / cos x) - PI = x.
Proof.
  intros Hx. pose proof PI_RGT_0 as Hpi.
  replace (sin x / cos x) with (tan (x + PI)).
  - rewrite atan_tan; lra.
  - unfold tan. rewrite neg_sin, neg_cos.
    assert (cos x < 0).
    { rewrite <- cos_neg. apply cos_lt_0; lra. }
    field. lra.
Qed.

(** [atan2] recovers an angle of [(-PI, PI]] from its sine and cosine. *)
Lemma atan2_sin_cos (x : R) : - PI < x <= PI -> atan2 (sin x) (cos x) = x.
Proof.
  intros Hx. pose proof PI_RGT_0 as Hpi. unfold atan2.
  destruct (Rlt_dec 0 (cos x)) as [Hc | Hc].
  - assert (- (PI / 2) < x < PI / 2).
    { destruct (Rle_lt_dec x (- (PI / 2))) as [H1 | H1].
      - assert (cos x <= 0); [| lra].
        rewrite <- cos_neg. apply cos_le_0; lra.
      - destruct (Rle_lt_dec (PI / 2) x) as [H2 | H2]; [| lra].
        assert (cos x <= 0); [| lra]. apply cos_le_0; lra. }
    change (sin x / cos x) with (tan x). now apply atan_tan.
  - destruct (Rlt_dec (cos x) 0) as [Hc' | Hc'].
    + destruct (Rle_dec 0 (sin x)) as [Hs | Hs].
      * assert (PI / 2 < x <= PI); [| now apply atan_tan_shift_up].
        destruct (Rle_lt_dec x (PI / 2)) as [H1 | H1]; [| lra].
        destruct (Rle_lt_dec (- (PI / 2)) x) as [H2 | H2].
        -- assert (0 <= cos x) by (apply cos_ge_0; lra). lra.
        -- assert (sin x < 0) by (apply sin_lt_0_var; lra). lra.
      * assert (- PI < x < - (PI / 2)); [| now apply atan_tan_shift_down].
        destruct (Rle_lt_dec (- (PI / 2)) x) as [H1 | H1]; [| lra].
        destruct (Rle_lt_dec x (PI / 2)) as [H2 | H2].
        -- assert (0 <= cos x) by (apply cos_ge_0; lra). lra.
        -- assert (0 <= sin x) by (apply sin_ge_0; lra). lra.
    + assert (Hz : cos x = 0) by lra.
      destruct (Rlt_dec 0 (sin x)) as [Hs | Hs].
      * destruct (Rtotal_order x (PI / 2)) as [H | [H | H]]; [| exact (eq_sym H) |].
        -- destruct (Rle_lt_dec x (- (PI / 2))) as [H1 | H1].
           ++ assert (sin x <= 0); [| lra].
              destruct (Req_dec_T x (- (PI / 2))) as [-> | Hne].
              ** rewrite sin_neg, sin_PI2. lra.
              ** left. apply sin_lt_0_var; lra.
           ++ assert (0 < cos x) by (apply cos_gt_0; lra). lra.
        -- assert (cos x < 0) by (apply cos_lt_0; lra). lra.
      * destruct (Rlt_dec (sin x) 0) as [Hs' | Hs'].
        -- destruct (Rtotal_order x (- (PI / 2))) as [H | [H | H]]; [| exact (eq_sym H) |].
           ++ assert (cos x < 0); [| lra].
              rewrite <- cos_neg. apply cos_lt_0; lra.
           ++ destruct (Rle_lt_dec (PI / 2) x) as [H1 | H1].
              ** assert (0 <= sin x) by (apply sin_ge_0; lra). lra.
              ** assert (0 < cos x) by (apply cos_gt_0; lra). lra.
        -- assert (Hs0 : sin x = 0) by lra.
           pose proof (sin2_cos2 x) as H. rewrite Hz, Hs0 in H.
           unfold Rsqr in H. lra.
Qed.

End Angles.

Section MoreGeodesy.

Lemma atan2_pos_0 (y : R) : 0 < y -> atan2 y 0 = PI / 2.
Proof.
  intros Hy. unfold atan2.
  destruct (Rlt_dec 0 0) as [H | _]; [lra |].
  destruct (Rlt_dec 0 0) as [H | _]; [lra |].
  destruct (Rlt_dec 0 y) as [_ | H]; [reflexivity | contradiction].
Qed.

Lemma atan2_neg_0 (y : R) : y < 0 -> atan2 y 0 = - (PI / 2).
Proof.
  intros Hy. unfold atan2.
  destruct (Rlt_dec 0 0) as [H | _]; [lra |].
  destruct (Rlt_dec 0 0) as [H | _]; [lra |].
  destruct (Rlt_dec 0 y) as [H | _]; [lra |].
  destruct (Rlt_dec y 0) as [_ | H]; [reflexivity | contradiction].
Qed.

Lemma equator_atan2_args (from to : LatLng) :
  lat from = 0 -> lat to = 0 ->
  bearingBetween from to
  = js_rem ((atan2 (sin (toRad (lng to - lng from))) 0 * 180) / PI + 360) 360.
Proof.
  intros Hf Ht. unfold bearingBetween. rewrite Hf, Ht, toRad_0, sin_0, cos_0.
  do 2 f_equal. f_equal. f_equal. f_equal; lra.
Qed.

Lemma bearing_due_east (from to : LatLng) :
  lat from = 0 -> lat to = 0 -> 0 < lng to - lng from < 180 ->
  bearingBetween from to = 90.
Proof.
  intros Hf Ht [Hlo Hhi]. rewrite equator_atan2_args by assumption.
  pose proof PI_RGT_0 as Hpi. rewrite atan2_pos_0.
  - replace (PI / 2 * 180 / PI + 360) with 450 by (field; lra).
    rewrite (js_rem_nonneg_eq 450 360 1); simpl; lra.
  - apply sin_gt_0; unfold toRad; nra.
Qed.

Lemma bearing_due_west (from to : LatLng) :
  lat from = 0 -> lat to = 0 -> -180 < lng to - lng from < 0 ->
  bearingBetween from to = 270.
Proof.
  intros Hf Ht [Hlo Hhi]. rewrite equator_atan2_args by assumption.
  pose proof PI_RGT_0 as Hpi. rewrite atan2_neg_0.
  - replace (- (PI / 2) * 180 / PI + 360) with 270 by (field; lra).
    rewrite (js_rem_nonneg_eq 270 360 0); simpl; lra.
  - apply sin_lt_0_var; unfold toRad; nra.
Qed.

Lemma haversine_sym (from to : LatLng) : haversine from to = haversine to from.
Proof.
  unfold haversine.
  replace (toRad (lat to - lat from) / 2)
    with (- (toRad (lat from - lat to) / 2)) by (unfold toRad; lra).
  replace (toRad (lng to - lng from) / 2)
    with (- (toRad (lng from - lng to) / 2)) by (unfold toRad; lra).
  rewrite !sin_neg. ring.
Qed.

Lemma haversine_meridian (from to : LatLng) :
  lng to = lng from ->
  haversine from to = (sin (toRad (lat to - lat from) / 2)) ^ 2.
Proof.
  intros Hl. unfold haversine. rewrite Hl.
  replace (lng from - lng from) with 0 by lra.
  rewrite toRad_0. replace (0 / 2) with 0 by lra. rewrite sin_0. ring.
Qed.

Lemma distance_meridian_north (from to : LatLng) :
  lng to = lng from -> 0 <= lat to - lat from <= 180 ->
  distanceBetween from to = 6371000 * toRad (lat to - lat from).
Proof.
  intros Hl [Hlo Hhi]. pose proof PI_RGT_0 as Hpi.
  unfold distanceBetween. rewrite haversine_meridian by assumption.
  set (u := toRad (lat to - lat from) / 2).
  assert (Hu : 0 <= u <= PI / 2) by (unfold u, toRad; nra).
  assert (Hs : 0 <= sin u) by (apply sin_ge_0; lra).
  assert (Hc : 0 <= cos u) by (apply cos_ge_0; lra).
  replace (1 - sin u ^ 2) with (cos u ^ 2).
  - rewrite !sqrt_pow2 by assumption.
    rewrite atan2_sin_cos by lra. unfold u. lra.
  - pose proof (sin2_cos2 u) as H. unfold Rsqr in H. lra.
Qed.

End MoreGeodesy.

(** Along a meridian the bearing is 0 towards the north and 180 towards
    the south; along the equator it is 90 towards the east and 270 towards
    the west. *)
Theorem bearing_of_cardinal_directions (from to : LatLng) :
  (lng to = lng from ->
   (0 < lat to - lat from < 180 -> bearingBetween from to = 0)
   /\ (-180 < lat to - lat from < 0 -> bearingBetween from to = 180))
  /\ (lat from = 0 -> lat to = 0 ->
      (0 < lng to - lng from < 180 -> bearingBetween from to = 90)
      /\ (-180 < lng to - lng from < 0 -> bearingBetween from to = 270)).
Proof.
  split.
  - intros Hl. split; intros H.
    + now apply bearing_due_north.
    + now apply bearing_due_south.
  - intros Hf Ht. split; intros H.
    + now apply bearing_due_east.
    + now apply bearing_due_west.
Qed.


(** Between two points of one meridian the distance is the radius of the
    sphere times the difference of latitude in radians. *)
Theorem distance_along_meridian (from to : LatLng) :
  lng to = lng from -> -180 <= lat to - lat from <= 180 ->
  distanceBetween from to = 6371000 * toRad (Rabs (lat to - lat from)).
Proof.
  intros Hl [Hlo Hhi]. unfold Rabs.
  destruct (Rcase_abs (lat to - lat from)) as [Hneg | Hpos].
  - replace (distanceBetween from to) with (distanceBetween to from)
      by (unfold distanceBetween; now rewrite haversine_sym).
    rewrite distance_meridian_north; [f_equal; f_equal; lra | now symmetry | lra].
  - apply distance_meridian_north; [assumption | lra].
Qed.

Lemma distance_along_meridian_witness :
  distanceBetween here (position southCafe) = 6371000 * toRad (Rabs (35.656 - 35.657)).
Proof.
  apply (distance_along_meridian here (position southCafe)).
  - reflexivity.
  - simpl. lra.
Defined.

(** ** Horizontal placement *)

Section Placement.

(** The transform of both marker callbacks, on its operands. *)
Lemma signed_difference (b h : R) :
  -360 < b - h < 360 ->
  js_rem (b - h + 540) 360 - 180
  = if Rlt_dec (b - h) (-180) then b - h + 360
    else if Rlt_dec (b - h) 180 then b - h
    else b - h - 360.
Proof.
  intros [Hlo Hhi].
  destruct (Rlt_dec (b - h) (-180)) as [H1 | H1].
  - rewrite (js_rem_nonneg_eq _ 360 0); simpl; lra.
  - destruct (Rlt_dec (b - h) 180) as [H2 | H2].
    + rewrite (js_rem_nonneg_eq _ 360 1); simpl; lra.
    + rewrite (js_rem_nonneg_eq _ 360 2); simpl; lra.
Qed.

Lemma leftPercent_bounds (r : R) : -180 <= r < 180 -> 0 <= leftPercent r < 100.
Proof. intros H. unfold leftPercent. lra. Qed.

Lemma Marker_bearing_bounds (s : State) (index : nat) :
  0 <= Marker.bearing s index < 360.
Proof.
  unfold Marker.bearing.
  assert (H : forall o, In o (beadings s) -> 0 <= orZero o < 360).
  { intros o Hin. unfold beadings in Hin. apply in_map_iff in Hin.
    destruct Hin as [building [Hb _]]. rewrite <- Hb.
    destruct (coords s); simpl; [apply bearingBetween_bounds | lra]. }
  destruct (nth_in_or_default index (beadings s) None) as [Hin | Hd].
  - now apply H.
  - rewrite Hd. simpl. lra.
Qed.

Lemma directions_bounds (dir : Direction) :
  In dir directions -> 0 <= angle dir < 360.
Proof.
  simpl. intros H.
  repeat (destruct H as [<- | H]; [simpl; lra |]). contradiction.
Qed.

Lemma relative_bounds_from_operands (b h : R) :
  0 <= b < 360 -> 0 <= h < 360 -> -180 <= js_rem (b - h + 540) 360 - 180 < 180.
Proof.
  intros Hb Hh.
  pose proof (js_rem_nonneg_bounds (b - h + 540) 360 ltac:(lra) ltac:(lra)).
  lra.
Qed.

End Placement.

(** With a heading in [[0, 360)] a building marker is placed at the signed
    difference between its bearing and the heading, taken the short way
    round: the difference itself when it lies in [[-180, 180)], 360 less
    when it is 180 or more, 360 more when it is below -180.  The marker is
    at the centre exactly when bearing and heading agree, and its [left]
    percentage always lies in [[0, 100)]. *)
Theorem marker_placed_at_signed_difference (s : State) (index : nat) (h : R) :
  orZero (heading s) = h -> 0 <= h < 360 ->
  let b := Marker.bearing s index in
  Marker.relative s index
  = (if Rlt_dec (b - h) (-180) then b - h + 360
     else if Rlt_dec (b - h) 180 then b - h
     else b - h - 360)
  /\ (Marker.relative s index = 0 <-> b = h)
  /\ (leftPercent (Marker.relative s index) = 50 <-> b = h)
  /\ 0 <= leftPercent (Marker.relative s index) < 100.
Proof.
  intros Hh Hr b. pose proof (Marker_bearing_bounds s index) as Hb. fold b in Hb.
  assert (E : Marker.relative s index
              = if Rlt_dec (b - h) (-180) then b - h + 360
                else if Rlt_dec (b - h) 180 then b - h
                else b - h - 360).
  { unfold Marker.relative. fold b. rewrite Hh. apply signed_difference. lra. }
  assert (Z : Marker.relative s index = 0 <-> b = h).
  { rewrite E. destruct (Rlt_dec (b - h) (-180)); [lra |].
    destruct (Rlt_dec (b - h) 180); lra. }
  split; [exact E | split; [exact Z | split]].
  - rewrite <- Z. unfold leftPercent. lra.
  - apply leftPercent_bounds. unfold Marker.relative. fold b. rewrite Hh.
    now apply relative_bounds_from_operands.
Qed.

Lemma marker_placed_at_signed_difference_witness :
  Marker.relative (found [northYes; southCafe]) 1 = 180 - 0 - 360.
Proof.
  pose proof (marker_placed_at_signed_difference
                (found [northYes; southCafe]) 1 0 eq_refl ltac:(lra)) as [E _].
  cbv zeta in E.
  replace (Marker.bearing (found [northYes; southCafe]) 1) with 180 in E
    by (symmetry; apply bearing_southCafe).
  destruct (Rlt_dec (180 - 0) (-180)) as [H | _]; [lra |].
  destruct (Rlt_dec (180 - 0) 180) as [H | _]; [lra |]. exact E.
Defined.

(** ** More on the vertical ranks *)

Section MoreRanks.

Lemma ranksOf_in_range (bearings : list (option R)) :
  Forall (fun r => (0 <= r < Z.of_nat (List.length bearings))%Z)
         (ranksOf bearings).
Proof.
  unfold ranksOf. rewrite Forall_map, Forall_forall. intros x Hx.
  pose proof (sort_perm orZero bearings) as Hp.
  change (JsArray.sort _ bearings) with (sortedBearings bearings) in Hp.
  apply (Permutation_in _ (Permutation_sym Hp)) in Hx.
  destruct (indexOf_In JsArray.strictEq _ _ Hx) as [n [En Hn]].
  rewrite En, <- (Permutation_length Hp).
  pose proof (proj1 (nth_error_Some _ n) ltac:(now rewrite Hn)). lia.
Qed.

Lemma nth_Forall {X : Type} (P : X -> Prop) (l : list X) (d : X) (n : nat) :
  Forall P l -> P d -> P (nth n l d).
Proof.
  intros Hl Hd. destruct (nth_in_or_default n l d) as [Hin | He].
  - rewrite Forall_forall in Hl. now apply Hl.
  - now rewrite He.
Qed.

(** In a sorted list the first position of an element is the number of
    elements with a smaller key, as long as equal keys mean equal
    elements. *)
Lemma indexOfFrom_counts {A : Type} (key : A -> R)
      (eq_dec : forall x y : A, {x = y} + {x <> y}) (l : list A) (x : A) :
  StronglySorted (fun a b => key a <= key b) l ->
  In x l ->
  (forall y, In y l -> key y = key x -> y = x) ->
  forall i,
    JsArray.indexOfFrom eq_dec i l x
    = (i + Z.of_nat
             (List.length
                (filter (fun y => if Rlt_dec (key y) (key x) then true else false) l)))%Z.
Proof.
  induction 1 as [| y l Hs IH Hall]; intros Hin Hinj i; [contradiction |].
  simpl. destruct (eq_dec y x) as [-> | Hne].
  - destruct (Rlt_dec (key x) (key x)) as [H | _]; [lra |].
    assert (Hnil : filter (fun y => if Rlt_dec (key y) (key x) then true else false) l
                   = []).
    { clear -Hall. induction Hall as [| z l Hz Hall IH]; [reflexivity |].
      simpl. destruct (Rlt_dec (key z) (key x)); [lra | exact IH]. }
    rewrite Hnil. simpl. lia.
  - destruct Hin as [-> | Hin]; [contradiction |].
    rewrite Forall_forall in Hall.
    assert (key y < key x).
    { pose proof (Hall x Hin) as Hle.
      destruct (Req_dec_T (key y) (key x)) as [E | E]; [| lra].
      exfalso. apply Hne. apply Hinj; [now left | exact E]. }
    destruct (Rlt_dec (key y) (key x)) as [_ | H']; [| contradiction].
    rewrite IH; [simpl List.length; lia | exact Hin |].
    intros z Hz. apply Hinj. now right.
Qed.

Lemma filter_length_perm {X : Type} (f : X -> bool) (l l' : list X) :
  Permutation l l' -> List.length (filter f l) = List.length (filter f l').
Proof.
  induction 1 as [| x l l' Hp IH | x y l | l l' l'' H1 IH1 H2 IH2]; simpl.
  - reflexivity.
  - destruct (f x); simpl; now rewrite IH.
  - destruct (f x), (f y); reflexivity.
  - now rewrite IH1.
Qed.

Lemma filter_length_map {X Y : Type} (f : Y -> bool) (g : X -> Y) (l : list X) :
  List.length (filter f (map g l)) = List.length (filter (fun x => f (g x)) l).
Proof.
  induction l as [| x l IH]; simpl; [reflexivity |].
  destruct (f (g x)); simpl; now rewrite IH.
Qed.

End MoreRanks.

Lemma every_rank_helper (s : State) :
  List.length (beadingRanks s) = List.length (buildings s)
  /\ Forall (fun r => (0 <= r < Z.of_nat (List.length (buildings s)))%Z)
            (beadingRanks s).
Proof.
  assert (Hl : List.length (beadings s) = List.length (buildings s))
    by (unfold beadings; apply length_map).
  split.
  - unfold beadingRanks. now rewrite ranksOf_length.
  - rewrite <- Hl. apply ranksOf_in_range.
Qed.

(** Whatever the building list, with bearings tied or not and with or
    without a user coordinate, there is one rank per building and every rank
    is a position of the list: at least 0 and below the number of
    buildings. *)
Theorem every_rank_is_a_position (s : State) :
  List.length (beadingRanks s) = List.length (buildings s)
  /\ Forall (fun r => (0 <= r < Z.of_nat (List.length (buildings s)))%Z)
            (beadingRanks s).
Proof. apply every_rank_helper. Qed.

(** The vertical offset of a marker is 24 times its rank modulo 20, less
    240: it is one of twenty rows between -240 and 216 however many
    buildings there are, and two ranks 20 apart share a row. *)
Theorem vertical_offset_cycles (s : State) (index : nat) :
  let rank := nth index (beadingRanks s) 0%Z in
  Marker.verticalOffset s index = (24 * (rank mod 20) - 240)%Z
  /\ (-240 <= Marker.verticalOffset s index <= 216)%Z
  /\ (forall other,
        nth other (beadingRanks s) 0%Z = (rank + 20)%Z ->
        Marker.verticalOffset s other = Marker.verticalOffset s index).
Proof.
  intros rank.
  assert (Hpos : forall i, (0 <= nth i (beadingRanks s) 0)%Z).
  { intros i. apply (nth_Forall (fun r => (0 <= r)%Z)); [| lia].
    eapply Forall_impl; [| exact (proj2 (every_rank_helper s))].
    intros r Hr. cbv beta in Hr |- *. lia. }
  assert (E : forall i,
             Marker.verticalOffset s i
             = (24 * (nth i (beadingRanks s) 0 mod 20) - 240)%Z).
  { intros i. unfold Marker.verticalOffset. cbv zeta.
    rewrite Z.rem_mod_nonneg by (try apply Hpos; lia).
    change (24 * 20 / 2)%Z with 240%Z. lia. }
  split; [apply E | split].
  - rewrite E. fold rank. pose proof (Z.mod_pos_bound rank 20 ltac:(lia)). lia.
  - intros other Ho. rewrite !E, Ho. fold rank.
    replace (rank + 20)%Z with (rank + 1 * 20)%Z by lia.
    now rewrite Z.mod_add by lia.
Qed.

(** With a known user coordinate the rank of a building is the number of
    buildings of the list whose bearing is strictly smaller than its own. *)
Theorem rank_counts_smaller_bearings
        (s : State) (from : LatLng) (i : nat) (building : Building.t) :
  coords s = Some from ->
  nth_error (buildings s) i = Some building ->
  nth i (beadingRanks s) 0%Z
  = Z.of_nat (smallerBearings from (buildings s) building).
Proof.
  intros Hc Hi. pose proof (beadings_known s from Hc) as Hb.
  set (g := fun b => Some (bearingBetween from (position b))) in Hb.
  assert (Hi' : nth_error (beadings s) i = Some (g building))
    by (rewrite Hb; now apply map_nth_error).
  unfold beadingRanks.
  rewrite (nth_error_nth _ _ _ (ranksOf_nth_error _ _ _ Hi')).
  pose proof (sort_sorted orZero (beadings s)) as Hs.
  pose proof (sort_perm orZero (beadings s)) as Hp.
  change (JsArray.sort _ (beadings s)) with (sortedBearings (beadings s)) in Hs, Hp.
  assert (Hin : In (g building) (sortedBearings (beadings s))).
  { apply (Permutation_in _ (Permutation_sym Hp)).
    eapply nth_error_In; exact Hi'. }
  unfold JsArray.indexOf.
  rewrite (indexOfFrom_counts orZero JsArray.strictEq _ _ Hs Hin).
  - rewrite (filter_length_perm _ _ _ Hp), Hb, filter_length_map.
    unfold smallerBearings. simpl. reflexivity.
  - intros y Hy Hk. apply (Permutation_in _ Hp) in Hy.
    rewrite Hb in Hy. apply in_map_iff in Hy.
    destruct Hy as [b' [<- _]]. unfold g in *. simpl in Hk. now rewrite Hk.
Qed.

Lemma rank_counts_smaller_bearings_witness :
  nth 1 (beadingRanks (found [northYes; southCafe])) 0%Z
  = Z.of_nat (smallerBearings here [northYes; southCafe] southCafe).
Proof.
  apply (rank_counts_smaller_bearings (found [northYes; southCafe]) here 1 southCafe);
    reflexivity.
Defined.

(** ** More on the samples *)

Section MoreIngest.

Lemma value_of_alpha (a : R) :
  0 <= a <= 360 ->
  js_rem (360 - a + 360) 360 = if Req_dec_T a 0 then 0 else 360 - a.
Proof.
  intros [Hlo Hhi]. destruct (Req_dec_T a 0) as [-> | Hne].
  - rewrite (js_rem_nonneg_eq _ 360 2); simpl; lra.
  - rewrite (js_rem_nonneg_eq _ 360 1); simpl; lra.
Qed.

Lemma handleOrientation_error (event : DeviceOrientationEvent) (s : State) :
  value event <> None -> orientationError (handleOrientation event s) = ""%string.
Proof.
  intros Hv. unfold handleOrientation.
  destruct (value event) as [v |]; [| contradiction].
  destruct s as [? ? ? ? ? ? h ? oe ? ? ? ? ? ? ? ? ?]. cbn.
  destruct h; cbn; destruct (truthy oe) eqn:E; cbn; try reflexivity;
    unfold truthy in E; apply negb_false_iff in E;
    now apply String.eqb_eq in E.
Qed.

Lemma handleOrientation_idempotent (event : DeviceOrientationEvent) (s : State) :
  handleOrientation event (handleOrientation event s) = handleOrientation event s.
Proof.
  unfold handleOrientation.
  destruct (value event) as [v |]; [| reflexivity].
  destruct s as [? ? ? ? ? ? h ? oe ? ? ? ? ? ? ? ? ?]. cbn.
  destruct h; cbn; destruct (truthy oe) eqn:E; cbn; rewrite ?E; reflexivity.
Qed.

Lemma dispatch_repeated (event : DeviceOrientationEvent) (l : list nat) (s : State) :
  fold_left (fun s _ => handleOrientation event s) l (handleOrientation event s)
  = handleOrientation event s.
Proof.
  induction l as [| c l IH]; simpl; [reflexivity |].
  now rewrite handleOrientation_idempotent.
Qed.

End MoreIngest.

(** The compass heading of an event, when it has one, is taken as it is and
    [alpha] is ignored.  Without it, an [alpha] between 0 and 360, which
    counts anticlockwise, is turned into the clockwise heading [360 - alpha]
    (0 for an [alpha] of 0), a number of [[0, 360)]. *)
Theorem sample_from_alpha (a : R) (compass : option R) :
  0 <= a <= 360 ->
  let event := {| webkitCompassHeading := compass; alpha := Some a |} in
  match compass with
  | Some c => value event = Some c
  | None =>
      value event = Some (if Req_dec_T a 0 then 0 else 360 - a)
      /\ forall v, value event = Some v -> 0 <= v < 360
  end.
Proof.
  intros Ha event. destruct compass as [c |]; [reflexivity |].
  unfold value, event. cbn. rewrite value_of_alpha by assumption.
  split; [reflexivity |]. intros v Hv. injection Hv as <-.
  destruct (Req_dec_T a 0); lra.
Qed.

Lemma sample_from_alpha_witness :
  value {| webkitCompassHeading := None; alpha := Some 90 |}
  = Some (if Req_dec_T 90 0 then 0 else 360 - 90).
Proof.
  apply (sample_from_alpha 90 None). lra.
Defined.

(** Handling the same sensor event twice is the same as handling it once,
    so an event delivered to several registered handlers has the effect of
    one delivery; and an event that carries a value leaves no orientation
    error behind. *)
Theorem sample_delivery_is_idempotent (event : DeviceOrientationEvent) (s : State) :
  handleOrientation event (handleOrientation event s) = handleOrientation event s
  /\ (listeners s <> [] -> dispatchOrientation event s = handleOrientation event s)
  /\ (value event <> None ->
      orientationError (handleOrientation event s) = ""%string).
Proof.
  split; [apply handleOrientation_idempotent | split].
  - intros Hl. unfold dispatchOrientation.
    destruct (listeners s) as [| c l]; [contradiction |].
    simpl. apply dispatch_repeated.
  - apply handleOrientation_error.
Qed.

(** ** Invariants of the heading *)

Section HeadingInvariants.

(** A property of the two heading signals that no step breaks, given that
    the two functions that write them keep it. *)
Lemma step_keeps_headings (P : option R -> option R -> Prop) (e : Event) :
  (forall s, match e with
             | Sensor event =>
                 P (heading s) (rawHeading s) ->
                 P (heading (handleOrientation event s))
                   (rawHeading (handleOrientation event s))
             | _ => True
             end) ->
  (forall s, P (heading s) (rawHeading s) ->
             P (heading (updateHeading s)) (rawHeading (updateHeading s))) ->
  forall s, P (heading s) (rawHeading s) ->
            P (heading (step e s)) (rawHeading (step e s)).
Proof.
  intros Hh Hu s Hs. destruct e as [env | result | event | |]; simpl.
  - unfold startOrientation.
    destruct (negb (supported env)); [exact Hs |].
    cbn [orientationActive setOrientationError].
    destruct (orientationActive s); [exact Hs |].
    destruct (needsPermission env); exact Hs.
  - unfold resumeOrientation. destruct (awaiting s); [exact Hs |].
    destruct result; exact Hs.
  - unfold dispatchOrientation.
    apply (fold_left_invariant (fun s => P (heading s) (rawHeading s)));
      [| exact Hs].
    intros s' _. apply Hh.
  - unfold animationFrame.
    apply (fold_left_invariant (fun s => P (heading s) (rawHeading s)));
      [| exact Hs].
    intros s' _. apply Hu.
  - unfold dispose.
    apply (fold_left_invariant (fun s => P (heading s) (rawHeading s)));
      [| exact Hs].
    intros s' call Hs'. unfold cleanup.
    cbn [headingAnimationId setOrientationActive setListeners].
    destruct (headingAnimationId s'); exact Hs'.
Qed.

Lemma updateHeading_rawHeading (s : State) :
  rawHeading (updateHeading s) = rawHeading s.
Proof.
  unfold updateHeading. destruct (rawHeading s) eqn:E; [| exact E].
  destruct (sinCosSums _). exact E.
Qed.

Lemma run_both_or_neither (es : list Event) :
  forall s, bothOrNeither (heading s) (rawHeading s) ->
            bothOrNeither (heading (run es s)) (rawHeading (run es s)).
Proof.
  induction es as [| e es IH]; intros s Hs; [exact Hs |].
  simpl. apply IH. apply (step_keeps_headings bothOrNeither); [| | exact Hs].
  - intros s'. destruct e; try exact I. intros H'.
    rewrite handleOrientation_heading, handleOrientation_rawHeading.
    unfold bothOrNeither in *.
    destruct (value event), (heading s'), (rawHeading s'); intuition congruence.
  - intros s' H'. rewrite updateHeading_heading, updateHeading_rawHeading.
    unfold bothOrNeither in *.
    destruct (rawHeading s'); intuition congruence.
Qed.

Lemma run_heading_in_range (es : list Event) :
  Forall inRange es ->
  forall s, headingInRange (heading s) (rawHeading s) ->
            headingInRange (heading (run es s)) (rawHeading (run es s)).
Proof.
  induction 1 as [| e es He Hes IH]; intros s Hs; [exact Hs |].
  simpl. apply IH. apply (step_keeps_headings headingInRange); [| | exact Hs].
  - intros s'. destruct e; try exact I. intros H' x.
    rewrite handleOrientation_heading.
    destruct (heading s') as [h |]; [apply H' | apply He].
  - intros s' H' x. rewrite updateHeading_heading.
    destruct (rawHeading s'); [| apply H'].
    intros Hx. injection Hx as <-. apply circularMean_bounds.
Qed.

End HeadingInvariants.

(** In every state the component can reach the smoothed heading is null
    exactly when no raw value has been stored. *)
Theorem heading_null_iff_no_sample (es : list Event) :
  heading (run es initial) = None <-> rawHeading (run es initial) = None.
Proof.
  apply (run_both_or_neither es initial). split; reflexivity.
Qed.

(** Starting without a sample, and as long as every sample that arrives is
    a heading in [[0, 360)], the heading is in [[0, 360)] whenever it is set,
    and every building marker and every direction marker has its [left]
    percentage in [[0, 100)]: nothing is ever placed outside the strip. *)
Theorem markers_stay_on_the_strip (s0 : State) (es : list Event) :
  unsampled s0 -> Forall inRange es ->
  let s := run es s0 in
  (forall h, heading s = Some h -> 0 <= h < 360)
  /\ (forall index, 0 <= leftPercent (Marker.relative s index) < 100)
  /\ (forall dir, In dir directions ->
                  0 <= leftPercent (Cardinal.relative dir s) < 100).
Proof.
  intros [_ H0] Hes s.
  assert (Hh : forall h, heading s = Some h -> 0 <= h < 360).
  { apply (run_heading_in_range es Hes s0). intros x Hx. congruence. }
  assert (Ho : 0 <= orZero (heading s) < 360).
  { destruct (heading s) as [h |]; simpl; [now apply Hh | lra]. }
  split; [exact Hh | split].
  - intros index. apply leftPercent_bounds. unfold Marker.relative.
    apply relative_bounds_from_operands; [apply Marker_bearing_bounds | exact Ho].
  - intros dir Hd. apply leftPercent_bounds. unfold Cardinal.relative.
    apply relative_bounds_from_operands; [now apply directions_bounds | exact Ho].
Qed.

Lemma markers_stay_on_the_strip_witness :
  0 <= leftPercent
         (Marker.relative
            (run [Click plainHost; Sensor (reading 90); Frame]
                 (found [northYes; southCafe])) 0) < 100.
Proof.
  apply (markers_stay_on_the_strip (found [northYes; southCafe])
           [Click plainHost; Sensor (reading 90); Frame]).
  - split; reflexivity.
  - constructor; [exact I |]. constructor; [| repeat constructor].
    intros x Hx. injection Hx as <-. lra.
Defined.

(** ** A steady signal *)

Section Steady.






End Steady.



(** ** One loop at a time *)

Section OneLoop.

Lemma orderly_frames (s : State) :
  orderly s ->
  (List.length (frames s) <= 1)%nat /\ (List.length (listeners s) <= 1)%nat
  /\ (orientationActive s = true <-> listeners s <> []).
Proof.
  intros [_ [_ [[Ha [Hl [Hf _]]] | [Ha [call [id [Hl [_ [Hf _]]]]]]]]];
    rewrite Hl, Hf, Ha; simpl; repeat split; try lia; try congruence.
Qed.

Lemma ticks_orderly (es : list Event) :
  forall s, exclusive es s -> orderly s ->
            (ticks es s <= List.length (filter isFrame es))%nat.
Proof.
  induction es as [| e es IH]; intros s Hex Hs; [simpl; lia |].
  destruct Hex as [He Hex].
  pose proof (IH (step e s) Hex (step_orderly e s He Hs)) as Ht.
  pose proof (orderly_frames s Hs) as [Hf _].
  cbn [ticks filter]. destruct e; cbn [isFrame List.length]; lia.
Qed.

Lemma initial_orderly : orderly initial.
Proof.
  split; [cbn; lia |]. split; [reflexivity |]. left. repeat split.
Qed.

End OneLoop.

(** When no call of [startOrientation] begins while another one waits for
    consent, at most one handler is registered and at most one frame is
    requested at any time, the activity flag is up exactly while a handler
    is registered, and [updateHeading] runs at most once per animation
    frame. *)
Theorem one_smoothing_pass_per_frame (es : list Event) :
  exclusive es initial ->
  (ticks es initial <= List.length (filter isFrame es))%nat
  /\ (List.length (listeners (run es initial)) <= 1)%nat
  /\ (List.length (frames (run es initial)) <= 1)%nat
  /\ (orientationActive (run es initial) = true
      <-> listeners (run es initial) <> []).
Proof.
  intros Hex. split.
  - apply ticks_orderly; [exact Hex | apply initial_orderly].
  - pose proof (orderly_frames _ (run_orderly es initial Hex initial_orderly))
      as [Hf [Hl Ha]].
    split; [exact Hl | split; [exact Hf | exact Ha]].
Qed.

Lemma one_smoothing_pass_per_frame_witness :
  (ticks [Click askingHost; Permission granted; Click plainHost; Frame; Frame]
         initial <= 2)%nat.
Proof.
  apply (one_smoothing_pass_per_frame
           [Click askingHost; Permission granted; Click plainHost; Frame; Frame]).
  repeat split.
Defined.

(** ** The two flows side by side *)

Section Flows.

Lemma handleOrientation_searchFlow (event : DeviceOrientationEvent) (s : State) :
  searchFlow (handleOrientation event s) = searchFlow s.
Proof. handle_cases event s; reflexivity. Qed.

Lemma updateHeading_searchFlow (s : State) :
  searchFlow (updateHeading s) = searchFlow s.
Proof.
  unfold updateHeading. destruct (rawHeading s); [| reflexivity].
  destruct (sinCosSums _). reflexivity.
Qed.

Lemma cleanup_searchFlow (call : nat) (s : State) :
  searchFlow (cleanup call s) = searchFlow s.
Proof.
  unfold cleanup. cbn [headingAnimationId setOrientationActive setListeners].
  now destruct (headingAnimationId s).
Qed.

Lemma step_searchFlow (e : Event) (s : State) :
  searchFlow (step e s) = searchFlow s.
Proof.
  destruct e as [env | result | event | |]; simpl.
  - unfold startOrientation.
    destruct (negb (supported env)); [reflexivity |].
    cbn [orientationActive setOrientationError].
    destruct (orientationActive s); [reflexivity |].
    destruct (needsPermission env); reflexivity.
  - unfold resumeOrientation. destruct (awaiting s); [reflexivity |].
    destruct result; reflexivity.
  - unfold dispatchOrientation.
    apply (fold_left_invariant (fun s' => searchFlow s' = searchFlow s));
      [| reflexivity].
    intros s' _ H. now rewrite handleOrientation_searchFlow.
  - unfold animationFrame.
    apply (fold_left_invariant (fun s' => searchFlow s' = searchFlow s));
      [| reflexivity].
    intros s' _ H. now rewrite updateHeading_searchFlow.
  - unfold dispose.
    apply (fold_left_invariant (fun s' => searchFlow s' = searchFlow s));
      [| reflexivity].
    intros s' call H. now rewrite cleanup_searchFlow.
Qed.

Lemma run_searchFlow (es : list Event) :
  forall s, searchFlow (run es s) = searchFlow s.
Proof.
  induction es as [| e es IH]; intros s; [reflexivity |].
  simpl. now rewrite IH, step_searchFlow.
Qed.


End Flows.

(** Nothing the orientation code does, on any sequence of clicks, permission
    answers, sensor events, frames and disposals, changes a signal of the
    location search; and no step of the location search (the radius field,
    the request for the position, its two callbacks, the start and the end
    of the building fetch) changes what the estimator holds or has
    registered, its error message included. *)
Theorem orientation_and_search_are_independent :
  (forall es s, searchFlow (run es s) = searchFlow s)
  /\ (forall typed s,
        tracking (onRadiusInput typed s) = tracking s
        /\ orientationError (onRadiusInput typed s) = orientationError s)
  /\ (forall geolocation s,
        tracking (fst (requestLocation geolocation s)) = tracking s
        /\ orientationError (fst (requestLocation geolocation s))
           = orientationError s)
  /\ (forall latitude longitude s,
        tracking (fst (positionFound latitude longitude s)) = tracking s
        /\ orientationError (fst (positionFound latitude longitude s))
           = orientationError s)
  /\ (forall message s,
        tracking (fst (positionFailed message s)) = tracking s
        /\ orientationError (fst (positionFailed message s))
           = orientationError s)
  /\ (forall outcome s,
        tracking (searchAroundResume outcome s) = tracking s
        /\ orientationError (searchAroundResume outcome s)
           = orientationError s).
Proof.
  split; [intros es s; apply run_searchFlow |].
  split; [intros typed s; split; reflexivity |].
  split; [intros [|] s; split; reflexivity |].
  split; [intros latitude longitude s; split; reflexivity |].
  split; [intros message s; split; reflexivity |].
  intros [found | | message |] s; split; reflexivity.
Qed.



(** ** The location search *)

Section Search.

Lemma radialView_shown (s : State) :
  radialView s <> None <-> coords s <> None /\ buildings s <> [].
Proof.
  unfold radialView. destruct (coords s), (buildings s); split;
    try (intros [H1 H2]); try intros H; try congruence;
    try (split; congruence).
Qed.

End Search.

(** A search from the device position: after [requestLocation] with
    geolocation, a position and the end of the fetch, the request carried
    that position and the radius of the moment, the coordinate is the
    position, and
    - on a loaded body the buildings are those of the body (none when the
      member is missing), the status counts them, no error is shown, and
      the radial view appears exactly when the list is not empty;
    - on any failure the list stays empty, the radial view stays hidden, the
      status reports the failure and the error is the message of the thrown
      error, or the fixed message when the response was not ok or the thrown
      value was not an error. *)
Theorem search_from_position
        (s : State) (latitude longitude : R) (outcome : FetchOutcome) :
  let s1 := fst (requestLocation true s) in
  let request := snd (positionFound latitude longitude s1) in
  let s3 := searchAroundResume outcome (fst (positionFound latitude longitude s1)) in
  snd (requestLocation true s) = None
  /\ request = {| reqLat := latitude; reqLng := longitude; reqRadius := radius s |}
  /\ coords s3 = Some {| lat := latitude; lng := longitude |}
  /\ hasSearched s3 = true
  /\ match outcome with
     | Loaded found =>
         buildings s3 = match found with Some l => l | None => [] end
         /\ status s3
            = ("周辺の建物 " ++ decimal (List.length (buildings s3)) ++ " 件")%string
         /\ error s3 = ""%string
         /\ (radialView s3 <> None <-> buildings s3 <> [])
     | NotOk | ThrownOther =>
         buildings s3 = [] /\ radialView s3 = None
         /\ status s3 = "取得に失敗しました。"%string
         /\ error s3 = fetchFailedMessage
     | Thrown message =>
         buildings s3 = [] /\ radialView s3 = None
         /\ status s3 = "取得に失敗しました。"%string
         /\ error s3 = message
     end.
Proof.
  intros s1 request s3. repeat (split; [reflexivity |]).
  destruct outcome as [found | | message |]; try (repeat split; reflexivity).
  repeat (split; [reflexivity |]).
  split; [now destruct found |]. split; [reflexivity |].
  split.
  - intros H. apply radialView_shown in H. exact (proj2 H).
  - intros H. apply radialView_shown. split; [discriminate | exact H].
Qed.

(** Without geolocation, or when the position cannot be obtained, the
    search is made around the fixed coordinate (35.65702, 139.70311) with
    the radius of the moment, and the message about the position stays in
    [error] when the buildings arrive: a loaded body does not clear it. *)
Theorem fallback_search_keeps_its_message
        (s : State) (reason : string) (found : option (list Building.t)) :
  let unsupported := requestLocation false s in
  let failed := positionFailed reason (fst (requestLocation true s)) in
  snd unsupported
  = Some {| reqLat := 35.65702; reqLng := 139.70311; reqRadius := radius s |}
  /\ snd failed
     = {| reqLat := 35.65702; reqLng := 139.70311; reqRadius := radius s |}
  /\ (let s3 := searchAroundResume (Loaded found) (fst unsupported) in
      coords s3 = Some fallbackCoords
      /\ buildings s3 = match found with Some l => l | None => [] end
      /\ error s3 = "このブラウザは位置情報に対応していません。"%string)
  /\ (let s3 := searchAroundResume (Loaded found) (fst failed) in
      coords s3 = Some fallbackCoords
      /\ buildings s3 = match found with Some l => l | None => [] end
      /\ error s3 = ("位置情報を取得できませんでした: " ++ reason)%string
      /\ error s3 <> ""%string).
Proof.
  intros unsupported failed. repeat split. discriminate.
Qed.

(** ** More on the building search endpoint *)

Section Shaping.
Import Backend.

Lemma truthy_nonempty (s : string) : truthy s = true <-> s <> ""%string.
Proof.
  unfold truthy. rewrite negb_true_iff. split.
  - intros H E. rewrite E in H. discriminate.
  - intros H. apply String.eqb_neq. exact H.
Qed.

Lemma truthy_append (a b : string) :
  truthy a = true -> truthy (a ++ b)%string = true.
Proof. destruct a; [discriminate | reflexivity]. Qed.

Lemma orElse_truthy (a b : option string) :
  truthyOpt b = true -> truthyOpt (orElse a b) = true.
Proof.
  intros Hb. unfold orElse. destruct (truthyOpt a) eqn:E; [exact E | exact Hb].
Qed.

Lemma toAddress_never_empty (tags : Tags) :
  toAddress tags = None \/ truthyOpt (toAddress tags) = true.
Proof.
  unfold toAddress. destruct (truthyOpt (get tags "addr:full")) eqn:Ef.
  - right. exact Ef.
  - destruct (get tags "addr:street") as [st |]; [| now left].
    destruct (get tags "addr:housenumber") as [nb |].
    + destruct (truthy st) eqn:Es; simpl.
      * destruct (truthy nb); right; simpl; [now apply truthy_append | exact Es].
      * now left.
    + destruct (truthy st) eqn:Es; [right; exact Es | now left].
Qed.

Lemma shape_fields (element : OverpassElement) (b : Building.t) :
  shape element = Some b ->
  Building.id b = el_id element
  /\ Building.label b <> ""%string
  /\ Building.type b <> ""%string
  /\ Building.address b
     = toAddress (match tags element with Some t => t | None => [] end)
  /\ (el_lat element <> None \/ center element <> None)
  /\ (el_lon element <> None \/ center element <> None).
Proof.
  unfold shape. set (t := match tags element with Some t => t | None => [] end).
  intros H.
  assert (Hc : (el_lat element <> None \/ center element <> None)
               /\ (el_lon element <> None \/ center element <> None)).
  { destruct (el_lat element), (el_lon element), (center element);
      simpl in H; try discriminate; split; (left + right); discriminate. }
  destruct (match el_lat element with
            | Some v => Some v
            | None => option_map center_lat (center element)
            end) as [la |]; [| discriminate].
  destruct (match el_lon element with
            | Some v => Some v
            | None => option_map center_lon (center element)
            end) as [lo |]; [| discriminate].
  injection H as <-. cbn [Building.id Building.label Building.type Building.address].
  split; [reflexivity |]. split; [| split; [| split; [reflexivity | exact Hc]]].
  - assert (Ht : truthyOpt
                   (orElse (orElse (orElse (get t "name") (get t "addr:housename"))
                              (get t "building")) (Some "建物"%string)) = true)
      by (apply orElse_truthy; reflexivity).
    destruct (orElse _ _) as [l |]; [| discriminate].
    now apply truthy_nonempty.
  - assert (Ht : truthyOpt (orElse (get t "building") (Some "building"%string)) = true)
      by (apply orElse_truthy; reflexivity).
    destruct (orElse _ _) as [l |]; [| discriminate].
    now apply truthy_nonempty.
Qed.

Lemma shaped_list (l : list OverpassElement) :
  let shaped :=
    flat_map (fun element =>
                match shape element with Some b => [b] | None => [] end) l in
  (List.length shaped <= List.length l)%nat
  /\ Forall (fun b => exists element, In element l /\ shape element = Some b)
            shaped.
Proof.
  induction l as [| e l [IHl IHf]]; simpl; [split; [lia | constructor] |].
  destruct (shape e) as [b |] eqn:E; simpl; split; try lia.
  - constructor.
    + exists e. split; [now left | exact E].
    + eapply Forall_impl; [| exact IHf].
      intros b' [e' [Hin He]]. exists e'. split; [now right | exact He].
  - eapply Forall_impl; [| exact IHf].
    intros b' [e' [Hin He]]. exists e'. split; [now right | exact He].
Qed.

End Shaping.

(** The address of an element is never the empty string: it is
    [addr:full] when that tag is not empty, else street and house number
    joined by a space when both are there and not empty, else the street
    when it is not empty, else undefined; a house number alone gives no
    address. *)
Theorem address_is_absent_or_not_empty (tags : Backend.Tags) :
  (Backend.toAddress tags = None
   \/ exists a, Backend.toAddress tags = Some a /\ a <> ""%string)
  /\ (Backend.truthyOpt (Backend.get tags "addr:full") = true ->
      Backend.toAddress tags = Backend.get tags "addr:full")
  /\ (Backend.truthyOpt (Backend.get tags "addr:full") = false ->
      Backend.truthyOpt (Backend.get tags "addr:street") = false ->
      Backend.toAddress tags = None).
Proof.
  split; [| split].
  - destruct (toAddress_never_empty tags) as [H | H]; [now left | right].
    destruct (Backend.toAddress tags) as [a |]; [| discriminate].
    exists a. split; [reflexivity | now apply truthy_nonempty].
  - intros H. unfold Backend.toAddress. now rewrite H.
  - intros Hf Hs. unfold Backend.toAddress. rewrite Hf.
    destruct (Backend.get tags "addr:street") as [st |]; [| reflexivity].
    simpl in Hs. rewrite Hs.
    destruct (Backend.get tags "addr:housenumber"); reflexivity.
Qed.

(** Every building of a 200 response comes from an element of the upstream
    answer that has a latitude and a longitude of its own or a centre: it
    carries the id of that element, a label and a type that are not empty,
    and the address computed from its tags.  There are no more buildings
    than elements, and an answer without elements gives an empty list. *)
Theorem response_buildings_are_shaped_elements
        (Number : option string -> Backend.Num)
        (fetch : Backend.OverpassQuery -> Backend.UpstreamResponse)
        (q : Backend.Query) (found : list Building.t) (radius : R) :
  Backend.body (fst (Backend.handler Number fetch q))
  = Backend.BuildingsBody found radius ->
  exists query,
    snd (Backend.handler Number fetch q) = [query]
    /\ Backend.ok (fetch query) = true
    /\ (List.length found
        <= List.length (match Backend.elements (fetch query) with
                        | Some l => l
                        | None => []
                        end))%nat
    /\ (Backend.elements (fetch query) = None -> found = [])
    /\ Forall (fun b =>
                 exists element,
                   In element (match Backend.elements (fetch query) with
                               | Some l => l
                               | None => []
                               end)
                   /\ Building.id b = Backend.el_id element
                   /\ Building.label b <> ""%string
                   /\ Building.type b <> ""%string
                   /\ Building.address b
                      = Backend.toAddress
                          (match Backend.tags element with
                           | Some t => t
                           | None => []
                           end)
                   /\ (Backend.el_lat element <> None
                       \/ Backend.center element <> None)
                   /\ (Backend.el_lon element <> None
                       \/ Backend.center element <> None))
              found.
Proof.
  unfold Backend.handler.
  destruct (Number (Backend.q_lat q)) as [latNum | | |]; try discriminate.
  destruct (Number (Backend.q_lng q)) as [lngNum | | |]; try discriminate.
  cbv zeta. set (query := Backend.Build_OverpassQuery _ latNum lngNum).
  destruct (Backend.ok (fetch query)) eqn:Hok; [| discriminate].
  cbn [negb fst snd Backend.body Backend.json]. intros H. injection H as <- _.
  exists query. split; [reflexivity |]. split; [exact Hok |].
  destruct (shaped_list (match Backend.elements (fetch query) with
                         | Some l => l
                         | None => []
                         end)) as [Hlen Hall].
  split; [exact Hlen |]. split.
  - intros Hn. now rewrite Hn.
  - eapply Forall_impl; [| exact Hall].
    intros b [element [Hin Hs]]. exists element. split; [exact Hin |].
    now apply shape_fields.
Qed.

Lemma response_buildings_are_shaped_elements_witness :
  exists query,
    snd (Backend.handler numberSample fetchSample
           {| Backend.q_lat := Some "35.657"%string;
              Backend.q_lng := Some "139.703"%string;
              Backend.q_radius := None |}) = [query]
    /\ Backend.ok (fetchSample query) = true.
Proof.
  destruct (response_buildings_are_shaped_elements numberSample fetchSample
              {| Backend.q_lat := Some "35.657"%string;
                 Backend.q_lng := Some "139.703"%string;
                 Backend.q_radius := None |}
              [Building.mk 7 "Cafe" "retail" (Some "Dogenzaka 2"%string)
                 35.656 139.703]
              (Rmin (Rmax 200 50) 1000) eq_refl)
    as [query [Hq [Hok _]]].
  exists query. split; [exact Hq | exact Hok].
Defined.

Section EndToEnd.
Import Backend.

Lemma clamp_cases (r : R) :
  (r < 50 -> Rmin (Rmax r 50) 1000 = 50)
  /\ (1000 < r -> Rmin (Rmax r 50) 1000 = 1000).
Proof.
  unfold Rmin, Rmax.
  split; intros H; destruct (Rle_dec r 50); destruct (Rle_dec _ 1000); lra.
Qed.

End EndToEnd.

(** From the radius field to the upstream query: when the three numbers of
    the request are printed and parsed back unchanged, the query that the
    endpoint sends upstream is around the searched position, with the typed
    radius when it lies in [[50, 1000]], 50 when it is smaller (and not 0),
    1000 when it is larger, and 200 when the field holds 0 or no number. *)
Theorem typed_radius_reaches_upstream_clamped
        (Number : option string -> Backend.Num)
        (fetch : Backend.OverpassQuery -> Backend.UpstreamResponse)
        (print : R -> string)
        (typed : option R) (latitude longitude : R) (s : State) :
  let request := snd (searchAround latitude longitude (onRadiusInput typed s)) in
  Number (Some (print (reqLat request))) = Backend.Finite (reqLat request) ->
  Number (Some (print (reqLng request))) = Backend.Finite (reqLng request) ->
  Number (Some (print (reqRadius request))) = Backend.Finite (reqRadius request) ->
  exists around,
    snd (Backend.handler Number fetch
           {| Backend.q_lat := Some (print (reqLat request));
              Backend.q_lng := Some (print (reqLng request));
              Backend.q_radius := Some (print (reqRadius request)) |})
    = [ {| Backend.around := around;
           Backend.aroundLat := latitude;
           Backend.aroundLng := longitude |} ]
    /\ 50 <= around <= 1000
    /\ match typed with
       | Some t =>
           (t = 0 -> around = 200)
           /\ (50 <= t <= 1000 -> around = t)
           /\ (t < 50 -> t <> 0 -> around = 50)
           /\ (1000 < t -> around = 1000)
       | None => around = 200
       end.
Proof.
  intros request Hlat Hlng Hrad.
  unfold Backend.handler. cbn [Backend.q_lat Backend.q_lng Backend.q_radius].
  rewrite Hlat, Hlng, Hrad. cbv zeta.
  destruct (negb (Backend.ok (fetch _))); cbn [snd];
    (eexists; split; [reflexivity |]; split; [apply clamp_bounds |]);
    unfold request, searchAround, onRadiusInput;
    cbn [snd reqRadius radius setStatus setCoords setRadius];
    (destruct typed as [t |];
     [ destruct (Req_dec_T t 0) as [-> | Hne];
       [ repeat split; intros; try lra; apply clamp_inside; lra
       | split; [intros; contradiction |];
         split; [apply clamp_inside |];
         split; [intros H _; now apply clamp_cases | apply clamp_cases] ]
     | apply clamp_inside; lra ]).
Qed.

Lemma typed_radius_reaches_upstream_clamped_witness :
  exists around,
    snd (Backend.handler numberSample fetchSample
           {| Backend.q_lat := Some (printSample 35.657);
              Backend.q_lng := Some (printSample 139.703);
              Backend.q_radius := Some (printSample 300) |})
    = [ {| Backend.around := around;
           Backend.aroundLat := 35.657;
           Backend.aroundLng := 139.703 |} ]
    /\ 50 <= around <= 1000.
Proof.
  assert (P1 : printSample 35.657 = "35.657"%string).
  { unfold printSample. destruct (Req_dec_T 35.657 35.657); [reflexivity | lra]. }
  assert (P2 : printSample 139.703 = "139.703"%string).
  { unfold printSample. destruct (Req_dec_T 139.703 35.657); [lra |].
    destruct (Req_dec_T 139.703 139.703); [reflexivity | lra]. }
  assert (P3 : printSample 300 = "300"%string).
  { unfold printSample. destruct (Req_dec_T 300 35.657); [lra |].
    destruct (Req_dec_T 300 139.703); [lra | reflexivity]. }
  assert (R0 : (if Req_dec_T 300 0 then 200 else 300) = 300)
    by (destruct (Req_dec_T 300 0); [lra | reflexivity]).
  destruct (typed_radius_reaches_upstream_clamped numberSample fetchSample
              printSample (Some 300) 35.657 139.703 initial)
    as [around [Hq [Hb _]]].
  - cbn [snd searchAround reqLat]. now rewrite P1.
  - cbn [snd searchAround reqLng]. now rewrite P2.
  - unfold searchAround, onRadiusInput.
    cbn [snd reqRadius radius setStatus setCoords setRadius].
    rewrite R0, P3. reflexivity.
  - exists around. split; [| exact Hb].
    unfold searchAround, onRadiusInput in Hq.
    cbn [snd reqLat reqLng reqRadius radius setStatus setCoords setRadius] in Hq.
    rewrite R0 in Hq. exact Hq.
Defined.
